(** * agenttrace: the run/step recording core

    A shallow embedding of [agenttrace/db.py], [agenttrace/tracer.py],
    the query half of [agenttrace/viewer.py], the traced functions of
    [agenttrace/demo.py] and the task and crew wrappers of
    [agenttrace/integrations/crewai.py].

    - The SQLite file is a pair of tables with their AUTOINCREMENT
      counters; a file on which [init_db] has not run yet has no tables.
      The directory of the file is there, and a statement on an open
      connection to a file with its tables succeeds.
    - A Python [str] is the list of its code points where its characters
      matter (what [json.dumps] escapes, what the slices of [traced] and
      [on_tool_end] keep); names, kinds, stored texts, messages and the
      texts of the CrewAI hooks are strings, one code point below 256 per
      character.
    - [RunRecorder] objects live in an object store and are referred to by
      their index, because the wrapper keeps the same object in a local
      variable and in the thread-local slot.
    - Python code is a state-and-exception monad over the world.
    - The environment (wall clock, [git], [json.loads]) is a record of
      oracles; nothing is assumed about it unless a theorem says so. *)

From Stdlib Require Import ZArith Lia Ascii String DecimalString Sorted Permutation.
From stdpp Require Import base list sorting gmap strings.

Local Open Scope string_scope.
Local Open Scope Z_scope.

(** ** Python values *)

(** A Python [str] is the list of its code points. A Rocq string stands
    for the [str] with the same characters, one code point below 256 per
    character; this is how a string of the file becomes a [str]. *)
Definition pystr : Type := list N.

Definition of_string (s : string) : pystr := map N_of_ascii (list_ascii_of_string s).

Coercion of_string : string >-> pystr.

(** [s[:n]] *)
Definition prefix (n : nat) (s : pystr) : pystr := take n s.

(** The fragment of Python objects that reaches [json.dumps] through
    [trace_event].  A float is identified by its [repr]; [PObject cls] is
    any object [json.dumps] has no encoding for (a set, bytes, an instance
    of a user class ...), [cls] being [type(o).__name__]; [PCircular cls]
    is a list or a dict that [json.dumps] finds again inside itself before
    it finds anything else it cannot encode. Data nested deeper than the
    recursion limit of the interpreter is not considered. *)
#[warnings="-register-all"]
Inductive pydata : Type :=
| PNone
| PBool (b : bool)
| PInt (n : Z)
| PFloat (repr : string)
| PStr (s : pystr)
| PList (items : list pydata)
| PDict (items : list (string * pydata))
| PObject (cls : string)
| PCircular (cls : string).

(** [type(o).__name__] *)
Definition type_name (o : pydata) : string :=
  match o with
  | PNone => "NoneType"
  | PBool _ => "bool"
  | PInt _ => "int"
  | PFloat _ => "float"
  | PStr _ => "str"
  | PList _ => "list"
  | PDict _ => "dict"
  | PObject cls => cls
  | PCircular cls => cls
  end.

(** A raised exception: its class, its message, and whether the class
    derives from [Exception] -- [KeyboardInterrupt], [SystemExit] and
    [GeneratorExit] derive from [BaseException] only. *)
Record PyExc : Type := mkExc {
  exc_class : string;
  exc_message : string;
  exc_is_exception : bool
}.

Inductive outcome (A : Type) : Type :=
| Returns (a : A)
| Raises (e : PyExc).
Arguments Returns {A} a.
Arguments Raises {A} e.

Definition TypeError (msg : string) : PyExc := mkExc "TypeError" msg true.
Definition ValueError (msg : string) : PyExc := mkExc "ValueError" msg true.
Definition AssertionError : PyExc := mkExc "AssertionError" EmptyString true.
Definition OverflowError (msg : string) : PyExc := mkExc "OverflowError" msg true.
Definition ProgrammingError : PyExc :=
  mkExc "sqlite3.ProgrammingError" "Cannot operate on a closed database." true.
Definition OperationalError (table : string) : PyExc :=
  mkExc "sqlite3.OperationalError" ("no such table: " ++ table) true.
(** The error of [sqlite3] for a TEXT value that is not valid UTF-8:
    [shown] is the value with U+FFFD in the place of what does not decode,
    the message being held in UTF-8 like every text of a file. *)
Definition DecodeError (column shown : string) : PyExc :=
  mkExc "sqlite3.OperationalError"
    ("Could not decode to UTF-8 column '" ++ column ++ "' with text '" ++ shown ++ "'")
    true.
(** Not a Python behaviour: the answer of the model to a method call on an
    index that is no object of the store. *)
Definition DanglingReference : PyExc := mkExc "ReferenceError" "no such object" true.

(** ** [json.dumps] with its default arguments *)

Definition dquote : ascii := "034"%char.
Definition backslash : ascii := "092"%char.

Definition hex_digit (n : N) : ascii :=
  match String.get (N.to_nat n) "0123456789abcdef" with
  | Some c => c
  | None => "0"%char
  end.

Definition hex4 (n : N) : string :=
  String (hex_digit (n / 4096 mod 16))
    (String (hex_digit (n / 256 mod 16))
       (String (hex_digit (n / 16 mod 16))
          (String (hex_digit (n mod 16)) EmptyString))).

(** [ESCAPE_ASCII] and its replacement function: the two characters with
    a short form, the five control characters with one, [\uXXXX] for the
    rest outside [' '..'~'], as a surrogate pair from U+10000 on. *)
Definition escape_codepoint (n : N) : string :=
  if (n =? 34)%N then String backslash (String dquote EmptyString)
  else if (n =? 92)%N then String backslash (String backslash EmptyString)
  else if (n =? 8)%N then String backslash "b"
  else if (n =? 12)%N then String backslash "f"
  else if (n =? 10)%N then String backslash "n"
  else if (n =? 13)%N then String backslash "r"
  else if (n =? 9)%N then String backslash "t"
  else if ((32 <=? n) && (n <=? 126))%N then String (ascii_of_N n) EmptyString
  else if (n <? 65536)%N then String backslash ("u" ++ hex4 n)
  else
    let v := (n - 65536)%N in
    String backslash ("u" ++ hex4 (N.lor 55296 (N.land (N.shiftr v 10) 1023)))
    ++ String backslash ("u" ++ hex4 (N.lor 56320 (N.land v 1023))).

Fixpoint escape_string (s : pystr) : string :=
  match s with
  | [] => EmptyString
  | c :: r => escape_codepoint c ++ escape_string r
  end.

Definition encode_basestring_ascii (s : pystr) : string :=
  String dquote (escape_string s) ++ String dquote EmptyString.

(** [sys.int_info.default_max_str_digits]: an [int] of more than 4300
    decimal digits has no [repr]. *)
Definition int_str_limit : Z := Eval vm_compute in (10 ^ 4300).

Definition int_has_repr (n : Z) : bool := Z.abs n <? int_str_limit.
Arguments int_has_repr : simpl never.

Definition float_literal (repr : string) : string :=
  if String.eqb repr "nan" then "NaN"
  else if String.eqb repr "inf" then "Infinity"
  else if String.eqb repr "-inf" then "-Infinity"
  else repr.

Fixpoint join (sep : string) (parts : list string) : string :=
  match parts with
  | [] => EmptyString
  | [p] => p
  | p :: rest => p ++ sep ++ join sep rest
  end.

(** The encoder walks the value left to right and raises at the first
    object it cannot encode. *)
Fixpoint json_dumps (o : pydata) : outcome string :=
  match o with
  | PNone => Returns "null"
  | PBool true => Returns "true"
  | PBool false => Returns "false"
  | PInt n =>
      if int_has_repr n then Returns (NilZero.string_of_int (Z.to_int n))
      else Raises (ValueError ("Exceeds the limit (4300 digits) for integer string conversion"
                               ++ "; use sys.set_int_max_str_digits() to increase the limit"))
  | PFloat r => Returns (float_literal r)
  | PStr s => Returns (encode_basestring_ascii s)
  | PList items =>
      let fix encode_items (l : list pydata) : outcome (list string) :=
        match l with
        | [] => Returns []
        | x :: r =>
            match json_dumps x with
            | Raises e => Raises e
            | Returns s =>
                match encode_items r with
                | Raises e => Raises e
                | Returns ss => Returns (s :: ss)
                end
            end
        end in
      match encode_items items with
      | Raises e => Raises e
      | Returns ss => Returns ("[" ++ join ", " ss ++ "]")
      end
  | PDict items =>
      let fix encode_pairs (l : list (string * pydata)) : outcome (list string) :=
        match l with
        | [] => Returns []
        | (k, v) :: r =>
            match json_dumps v with
            | Raises e => Raises e
            | Returns s =>
                match encode_pairs r with
                | Raises e => Raises e
                | Returns ss => Returns ((encode_basestring_ascii k ++ ": " ++ s) :: ss)
                end
            end
        end in
      match encode_pairs items with
      | Raises e => Raises e
      | Returns ss => Returns ("{" ++ join ", " ss ++ "}")
      end
  | PObject cls =>
      Raises (TypeError ("Object of type " ++ cls ++ " is not JSON serializable"))
  | PCircular _ => Raises (ValueError "Circular reference detected")
  end.

(** ** The database file: [_SCHEMA] *)

(** A row of [runs]: [end_ts] is NULL until the UPDATE of [__exit__]. *)
Record Run : Type := mkRun {
  runs_id : Z;
  runs_func_name : string;
  runs_start_ts : string;
  runs_end_ts : option string;
  runs_git_sha : string
}.

(** A row of [steps]. [steps_undecodable] names the first of its TEXT
    columns, in the order of the table, whose bytes are not valid UTF-8 and
    will not come out of [sqlite3] as a [str], with those bytes as the error
    message shows them; it is [None] for a row that reads, as every row does
    that this package wrote. *)
Record Step : Type := mkStep {
  steps_id : Z;
  steps_run_id : Z;
  steps_ts : string;
  steps_kind : string;
  steps_payload : string;
  steps_undecodable : option (string * string)
}.

(** The two tables in rowid order, and per table the largest rowid ever
    handed out (the [sqlite_sequence] entry behind AUTOINCREMENT). *)
Record Database : Type := mkDatabase {
  runs : list Run;
  steps : list Step;
  seq_runs : Z;
  seq_steps : Z
}.

Definition empty_tables : Database := mkDatabase [] [] 0 0.

(** [INSERT INTO runs (func_name, start_ts, git_sha) VALUES (?, ?, ?)];
    the second component is [cur.lastrowid]. *)
Definition insert_run (name ts sha : string) (d : Database) : Database * Z :=
  let rid := seq_runs d + 1 in
  (mkDatabase (runs d ++ [mkRun rid name ts None sha]) (steps d) rid (seq_steps d), rid).

(** [UPDATE runs SET end_ts=? WHERE id=?]; the parameter is [None] when the
    recorder has no run id, and [id = NULL] holds of no row. *)
Definition set_end_ts (ts : string) (rid : option Z) (r : Run) : Run :=
  match rid with
  | Some i =>
      if runs_id r =? i
      then mkRun (runs_id r) (runs_func_name r) (runs_start_ts r) (Some ts) (runs_git_sha r)
      else r
  | None => r
  end.

Definition update_end_ts (ts : string) (rid : option Z) (d : Database) : Database :=
  mkDatabase (map (set_end_ts ts rid) (runs d)) (steps d) (seq_runs d) (seq_steps d).

(** [INSERT INTO steps (run_id, ts, kind, payload) VALUES (?, ?, ?, ?)].
    The FOREIGN KEY clause of the schema is not enforced: no connection of
    the package issues [PRAGMA foreign_keys = ON]. *)
Definition insert_step (rid : Z) (ts kind payload : string) (d : Database) : Database :=
  let sid := seq_steps d + 1 in
  mkDatabase (runs d) (steps d ++ [mkStep sid rid ts kind payload None]) (seq_runs d) sid.

(** [ORDER BY ts]: TEXT values compare bytewise. SQLite does not say in
    which order rows with equal keys come; here they stay in rowid order,
    which is what its sorter does. *)
Fixpoint insert_by_ts (s : Step) (l : list Step) : list Step :=
  match l with
  | [] => [s]
  | x :: r =>
      if String.leb (steps_ts s) (steps_ts x) then s :: x :: r
      else x :: insert_by_ts s r
  end.

Definition order_by_ts (l : list Step) : list Step := foldr insert_by_ts [] l.

(** What fits an INTEGER of SQLite. *)
Definition in_int64 (n : Z) : bool := (- 2 ^ 63 <=? n) && (n <? 2 ^ 63).

(** [SELECT * FROM steps WHERE run_id = ? ORDER BY ts] *)
Definition select_steps (rid : Z) (d : Database) : list Step :=
  order_by_ts (filter (fun s => steps_run_id s = rid) (steps d)).

(** The row of a run, by id. *)
Definition find_run (rid : Z) (d : Database) : option Run :=
  List.find (fun r => runs_id r =? rid) (runs d).

(** ** Recorders, the world and the environment *)

(** One [RunRecorder] object.  [conn_open] is the state of [self.conn];
    every recorder of the package connects to the same file, so [db_path]
    is not kept. *)
Record RunRecorder : Type := mkRunRecorder {
  func_name : string;
  git_sha : string;
  conn_open : bool;
  run_id : option Z
}.

(** The database file ([None]: no tables yet, in a directory that is
    there), the object store, the
    [recorder] attribute of [_context] per thread ([threading.local]: a
    thread that never assigned it has no entry), and the number of clock
    readings taken so far. *)
Record World : Type := mkWorld {
  db : option Database;
  heap : list RunRecorder;
  context : gmap nat (option nat);
  ticks : nat
}.

Definition initial_world : World := mkWorld None [] ∅ 0%nat.

(** What the code asks of its surroundings: the [n]-th reading of
    [datetime.utcnow().isoformat()], the [repr] of the difference of two
    [time.time()] readings, the stripped output of [git rev-parse HEAD]
    ([None] when it fails or exits non-zero), and [json.loads] ([None]
    when it raises). *)
Record Env : Type := mkEnv {
  utcnow_isoformat : nat -> string;
  elapsed_repr : nat -> nat -> string;
  git_rev_parse : option string;
  json_loads : string -> option pydata
}.

(** The runs and steps of a world; none while the file has no tables. *)
Definition runs_of (w : World) : list Run :=
  match db w with Some d => runs d | None => [] end.
Definition steps_of (w : World) : list Step :=
  match db w with Some d => steps d | None => [] end.

(** The end timestamp of a run: [None] if there is no such run,
    [Some None] while it is in progress. *)
Definition end_ts_of (rid : Z) (w : World) : option (option string) :=
  match db w with
  | Some d => runs_end_ts <$> find_run rid d
  | None => None
  end.
Definition start_ts_of (rid : Z) (w : World) : option string :=
  match db w with
  | Some d => runs_start_ts <$> find_run rid d
  | None => None
  end.

(** [getattr(_context, 'recorder', None)] of thread [tid]. *)
Definition current_recorder (tid : nat) (w : World) : option nat :=
  default None (context w !! tid).

(** ** The monad of Python code *)

Definition M (A : Type) : Type := World -> outcome A * World.

Definition ret {A} (a : A) : M A := fun w => (Returns a, w).
Definition raise {A} (e : PyExc) : M A := fun w => (Raises e, w).
Definition bind {A B} (m : M A) (k : A -> M B) : M B :=
  fun w =>
    match m w with
    | (Returns a, w1) => k a w1
    | (Raises e, w1) => (Raises e, w1)
    end.
Definition lift {A} (o : outcome A) : M A := fun w => (o, w).

Notation "'do' x <- m ; k" := (bind m (fun x => k))
  (at level 10, x name, m at level 100, k at level 200).

(** [try: body finally: fin] *)
Definition try_finally {A} (body : M A) (fin : M unit) : M A :=
  fun w =>
    let '(o, w1) := body w in
    match fin w1 with
    | (Returns _, w2) => (o, w2)
    | (Raises e, w2) => (Raises e, w2)
    end.

(** [with mgr: body], for a manager whose [__exit__] returns [None]: a
    failure of the body is never suppressed, a failure of [__exit__]
    replaces whatever the body did. *)
Definition with_ {A B} (enter : M B) (exit : M unit) (body : M A) : M A :=
  do _ <- enter;
  fun w =>
    let '(o, w1) := body w in
    match exit w1 with
    | (Returns _, w2) => (o, w2)
    | (Raises e, w2) => (Raises e, w2)
    end.

Definition set_db (d : Database) (w : World) : World :=
  mkWorld (Some d) (heap w) (context w) (ticks w).
Definition set_heap (h : list RunRecorder) (w : World) : World :=
  mkWorld (db w) h (context w) (ticks w).
Definition set_context (c : gmap nat (option nat)) (w : World) : World :=
  mkWorld (db w) (heap w) c (ticks w).
Definition tick (w : World) : World :=
  mkWorld (db w) (heap w) (context w) (S (ticks w)).

(** Reading the attributes of the object behind a reference. *)
Definition deref (self : nat) : M RunRecorder :=
  fun w =>
    match heap w !! self with
    | Some r => (Returns r, w)
    | None => (Raises DanglingReference, w)
    end.

(** Every method of a closed [sqlite3] connection raises. *)
Definition conn_check (self : nat) : M unit :=
  do r <- deref self;
  if conn_open r then ret tt else raise ProgrammingError.

(** Running a statement on the file; it commits at once. *)
Definition sql {A} (table : string) (stmt : Database -> Database * A) : M A :=
  fun w =>
    match db w with
    | Some d => let '(d', a) := stmt d in (Returns a, set_db d' w)
    | None => (Raises (OperationalError table), w)
    end.

Definition setattr_run_id (self : nat) (rid : Z) : M unit :=
  do r <- deref self;
  fun w =>
    (Returns tt,
     set_heap (<[self := mkRunRecorder (func_name r) (git_sha r) (conn_open r) (Some rid)]> (heap w)) w).

Definition conn_close (self : nat) : M unit :=
  do r <- deref self;
  fun w =>
    (Returns tt,
     set_heap (<[self := mkRunRecorder (func_name r) (git_sha r) false (run_id r)]> (heap w)) w).

(** [time.time()]: the result stands for the reading by its number. *)
Definition time_time : M nat := fun w => (Returns (ticks w), tick w).

Section Core.

Variable env : Env.

Definition utcnow : M string :=
  fun w => (Returns (utcnow_isoformat env (ticks w)), tick w).

(** ** db.py *)

(** [CREATE TABLE IF NOT EXISTS] twice over. *)
Definition init_db : M unit :=
  fun w =>
    match db w with
    | Some _ => (Returns tt, w)
    | None => (Returns tt, set_db empty_tables w)
    end.

(** [git_sha or "unknown"] *)
Definition or_unknown (sha : option string) : string :=
  match sha with
  | Some s => if String.eqb s EmptyString then "unknown" else s
  | None => "unknown"
  end.

(** [RunRecorder(func_name, git_sha)]: the reference to the new object. *)
Definition RunRecorder_init (name : string) (sha : option string) : M nat :=
  do _ <- init_db;
  fun w =>
    (Returns (length (heap w)),
     set_heap (heap w ++ [mkRunRecorder name (or_unknown sha) true None]) w).

Definition RunRecorder_enter (self : nat) : M nat :=
  do _ <- conn_check self;
  do r <- deref self;
  do now <- utcnow;
  do rid <- sql "runs" (insert_run (func_name r) now (git_sha r));
  do _ <- setattr_run_id self rid;
  ret self.

Definition log_step (self : nat) (kind payload : string) : M unit :=
  do r <- deref self;
  match run_id r with
  | None => raise AssertionError
  | Some rid =>
      do now <- utcnow;
      do _ <- conn_check self;
      sql "steps" (fun d => (insert_step rid now kind payload d, tt))
  end.

Definition RunRecorder_exit (self : nat) : M unit :=
  do now <- utcnow;
  do r <- deref self;
  do _ <- conn_check self;
  do _ <- sql "runs" (fun d => (update_end_ts now (run_id r) d, tt));
  conn_close self.

(** ** tracer.py *)

Definition get_current_recorder (tid : nat) : M (option nat) :=
  fun w => (Returns (current_recorder tid w), w).

Definition trace_event (tid : nat) (event_type : string) (data : pydata) : M unit :=
  do recorder <- get_current_recorder tid;
  match recorder with
  | Some r =>
      do payload <- lift (json_dumps data);
      log_step r event_type payload
  | None => ret tt
  end.

Definition get_git_sha : M string :=
  ret (match git_rev_parse env with
       | Some out => substring 0 8 out
       | None => "unknown"
       end).

Definition setattr_recorder (tid : nat) (v : option nat) : M unit :=
  fun w => (Returns tt, set_context (<[tid := v]> (context w)) w).

(** One call of the wrapper that [traced(func)] returns, in thread [tid];
    [args] and [kwargs] are [str(args)] and [str(kwargs)], [func] is the
    call of the wrapped function on them. *)
Definition traced (tid : nat) (name : string) (args kwargs : pystr) (func : M pydata)
    : M pydata :=
  do sha <- get_git_sha;
  do recorder <- RunRecorder_init name (Some sha);
  do old_recorder <- get_current_recorder tid;
  do _ <- setattr_recorder tid (Some recorder);
  try_finally
    (with_ (RunRecorder_enter recorder) (RunRecorder_exit recorder)
       (do _ <- trace_event tid "function_start"
                  (PDict [("args", PStr (prefix 100 args));
                          ("kwargs", PStr (prefix 100 kwargs))]);
        do start_time <- time_time;
        do result <- func;
        do stop_time <- time_time;
        do _ <- trace_event tid "function_end"
                  (PDict [("duration", PFloat (elapsed_repr env start_time stop_time));
                          ("result_type", PStr (type_name result))]);
        ret result))
    (setattr_recorder tid old_recorder).

(** ** viewer.py *)

Inductive payload_view : Type :=
| Decoded (o : pydata)
| Raw (s : string).

(** [dict(row)] with the payload replaced when [json.loads] accepts it. *)
Record step_dict : Type := mkStepDict {
  sd_id : Z;
  sd_run_id : Z;
  sd_ts : string;
  sd_kind : string;
  sd_payload : payload_view
}.

(** [try: json.loads(payload) except: pass] *)
Definition view_payload (payload : string) : payload_view :=
  match json_loads env payload with
  | Some o => Decoded o
  | None => Raw payload
  end.

Definition step_to_dict (row : Step) : step_dict :=
  mkStepDict (steps_id row) (steps_run_id row) (steps_ts row) (steps_kind row)
    (view_payload (steps_payload row)).

(** The [for] loop over the cursor: the rows come out one at a time, and
    one with a TEXT column that does not decode ends the loop with the
    error of [sqlite3], outside the [try] that is around [json.loads]. *)
Fixpoint fetch_steps (rows : list Step) : outcome (list step_dict) :=
  match rows with
  | [] => Returns []
  | row :: rest =>
      match steps_undecodable row with
      | Some (column, shown) => Raises (DecodeError column shown)
      | None =>
          match fetch_steps rest with
          | Returns dicts => Returns (step_to_dict row :: dicts)
          | Raises e => Raises e
          end
      end
  end.

(** [conn.execute] prepares the statement, which needs the table, and
    binds [run_id] as a 64-bit integer before the first row is read. *)
Definition get_steps (rid : Z) : M (list step_dict) :=
  do _ <- sql "steps" (fun d => (d, tt));
  if in_int64 rid then
    do rows <- sql "steps" (fun d => (d, select_steps rid d));
    lift (fetch_steps rows)
  else raise (OverflowError "Python int too large to convert to SQLite INTEGER").

(** ** Code that uses the package *)

(** A run of user code as the calls it makes on the public names of the
    package ([__all__]): [trace_event], a call of a [traced] function,
    and Python's own [return], [raise] and [try]/[except]. *)
Inductive prog : Type :=
| Return (v : pydata)
| Raise (e : PyExc)
| TraceEvent (event_type : string) (data : pydata) (k : prog)
| CallTraced (name : string) (args kwargs : pystr) (body : prog) (k : pydata -> prog)
| TryExcept (body : prog) (handler : PyExc -> prog) (k : pydata -> prog).

Fixpoint exec (tid : nat) (p : prog) : M pydata :=
  match p with
  | Return v => ret v
  | Raise e => raise e
  | TraceEvent ty d k => do _ <- trace_event tid ty d; exec tid k
  | CallTraced n a kw body k =>
      do v <- traced tid n a kw (exec tid body); exec tid (k v)
  | TryExcept body handler k =>
      fun w =>
        match exec tid body w with
        | (Returns v, w1) => exec tid (k v) w1
        | (Raises e, w1) => (do v <- exec tid (handler e); exec tid (k v)) w1
        end
  end.

End Core.

(** ** Sequences of calls *)

(** What a client of the package can do between two observations: the
    calls of [db.py], a run of user code in some thread, a listing. *)
Inductive api_call : Type :=
| Call_init_db
| Call_RunRecorder (name : string) (sha : option string)
| Call_enter (self : nat)
| Call_log_step (self : nat) (kind payload : string)
| Call_exit (self : nat)
| Call_run (tid : nat) (p : prog)
| Call_get_steps (rid : Z).

Definition perform (env : Env) (c : api_call) (w : World) : World :=
  match c with
  | Call_init_db => snd (init_db w)
  | Call_RunRecorder name sha => snd (RunRecorder_init name sha w)
  | Call_enter self => snd (RunRecorder_enter env self w)
  | Call_log_step self kind payload => snd (log_step env self kind payload w)
  | Call_exit self => snd (RunRecorder_exit env self w)
  | Call_run tid p => snd (exec env tid p w)
  | Call_get_steps rid => snd (get_steps env rid w)
  end.

Definition after (env : Env) (calls : list api_call) (w : World) : World :=
  fold_left (fun w c => perform env c w) calls w.

(** [for kind, payload in events: self.log_step(kind, payload)] *)
Fixpoint log_steps (env : Env) (self : nat) (events : list (string * string)) : M unit :=
  match events with
  | [] => ret tt
  | (kind, payload) :: rest =>
      do _ <- log_step env self kind payload; log_steps env self rest
  end.

(** Straight-line user code: the events in turn, then [k]. *)
Definition seq_events (events : list (string * pydata)) (k : prog) : prog :=
  foldr (fun e p => TraceEvent (fst e) (snd e) p) k events.

(** User code that calls no traced function. *)
Fixpoint no_calls (p : prog) : Prop :=
  match p with
  | Return _ | Raise _ => True
  | TraceEvent _ _ k => no_calls k
  | CallTraced _ _ _ _ _ => False
  | TryExcept body handler k =>
      no_calls body /\ (forall e, no_calls (handler e)) /\ (forall v, no_calls (k v))
  end.

Definition serialisable (o : pydata) : Prop :=
  exists s, json_dumps o = Returns s.

(** The wrapper up to the call of the wrapped function, and from its
    outcome on; [traced_split] below shows these are the two halves of
    [traced]. *)
Definition wrapper_entry (env : Env) (tid : nat) (name : string) (args kwargs : pystr)
    : M nat :=
  do sha <- get_git_sha env;
  do recorder <- RunRecorder_init name (Some sha);
  do _ <- setattr_recorder tid (Some recorder);
  do _ <- RunRecorder_enter env recorder;
  do _ <- trace_event env tid "function_start"
            (PDict [("args", PStr (prefix 100 args));
                    ("kwargs", PStr (prefix 100 kwargs))]);
  time_time.

Definition wrapper_exit (env : Env) (tid recorder : nat) (old_recorder : option nat)
    (start_time : nat) (o : outcome pydata) : M pydata :=
  try_finally
    (fun w =>
       let '(o', w1) :=
         (do result <- lift o;
          do stop_time <- time_time;
          do _ <- trace_event env tid "function_end"
                    (PDict [("duration", PFloat (elapsed_repr env start_time stop_time));
                            ("result_type", PStr (type_name result))]);
          ret result) w in
       match RunRecorder_exit env recorder w1 with
       | (Returns _, w2) => (o', w2)
       | (Raises e, w2) => (Raises e, w2)
       end)
    (setattr_recorder tid old_recorder).

(** The world in which the wrapped function starts to run. *)
Definition at_call (env : Env) (tid : nat) (name : string) (args kwargs : pystr)
    (w : World) : World :=
  snd (wrapper_entry env tid name args kwargs w).

Definition recorder_run_id (self : nat) (w : World) : option Z :=
  r ← heap w !! self; run_id r.

Definition recorder_open (self : nat) (w : World) : Prop :=
  exists r, heap w !! self = Some r /\ conn_open r = true.

(** ** Properties of worlds and environments *)

(** The clock never goes back, in the order in which SQLite compares the
    stored texts. *)
Definition clock_monotone (env : Env) : Prop :=
  forall i j : nat, (i <= j)%nat ->
    String.leb (utcnow_isoformat env i) (utcnow_isoformat env j) = true.

(** The [n] readings of the clock from the [t]-th on are all different
    as well: each is later than the one before. *)
Definition clock_increasing (env : Env) (t n : nat) : Prop :=
  forall i j : nat, (t <= i)%nat -> (i < j)%nat -> (j < t + n)%nat ->
    String.ltb (utcnow_isoformat env i) (utcnow_isoformat env j) = true.

Definition ts_le (a b : Step) : Prop := String.leb (steps_ts a) (steps_ts b) = true.

(** The rows that [log_steps] adds for [events] on a recorder of run
    [rid], when the last step id handed out is [sid] and [t] readings of
    the clock have been taken. *)
Fixpoint logged_rows (env : Env) (rid sid : Z) (t : nat) (events : list (string * string))
    : list Step :=
  match events with
  | [] => []
  | (kind, payload) :: rest =>
      mkStep (sid + 1) rid (utcnow_isoformat env t) kind payload None
      :: logged_rows env rid (sid + 1) (S t) rest
  end.

(** What the calls keep true of the file and the recorders. *)
Record consistent (w : World) : Prop := {
  runs_below_seq :
    forall d r, db w = Some d -> r ∈ runs d -> runs_id r <= seq_runs d;
  steps_reference_runs :
    forall s, s ∈ steps_of w -> exists r, r ∈ runs_of w /\ runs_id r = steps_run_id s;
  open_in_progress :
    forall i r rid, heap w !! i = Some r -> conn_open r = true ->
      run_id r = Some rid -> end_ts_of rid w = Some None;
  open_distinct :
    forall i j r r' rid, heap w !! i = Some r -> heap w !! j = Some r' ->
      conn_open r = true -> conn_open r' = true ->
      run_id r = Some rid -> run_id r' = Some rid -> i = j
}.

(** Every stored timestamp was read from the clock before now, and the
    steps were inserted in the order of their timestamps. *)
Record timely (env : Env) (w : World) : Prop := {
  runs_timely :
    forall r t, r ∈ runs_of w -> (ticks w <= t)%nat ->
      String.leb (runs_start_ts r) (utcnow_isoformat env t) = true;
  steps_timely :
    forall s t, s ∈ steps_of w -> (ticks w <= t)%nat ->
      String.leb (steps_ts s) (utcnow_isoformat env t) = true;
  steps_sorted : StronglySorted ts_le (steps_of w)
}.

(** ** A concrete environment for the examples *)

(** Ten readings of a clock, the last one repeated for ever. *)
Definition sample_clock (n : nat) : string :=
  nth n
    ["2024-05-01T12:00:00"; "2024-05-01T12:00:00.000120";
     "2024-05-01T12:00:00.000480"; "2024-05-01T12:00:00.001000";
     "2024-05-01T12:00:00.001000"; "2024-05-01T12:00:01.250000";
     "2024-05-01T12:00:01.250300"; "2024-05-01T12:00:02";
     "2024-05-01T12:00:02.000007"]
    "2024-05-01T12:00:03.500000".

(** A decoder that knows the three JSON literals and rejects every other
    text; the examples only ask it about texts on which [json.loads]
    answers the same. *)
Definition literal_loads (s : string) : option pydata :=
  if String.eqb s "null" then Some PNone
  else if String.eqb s "true" then Some (PBool true)
  else if String.eqb s "false" then Some (PBool false)
  else None.

Definition sample_env : Env :=
  mkEnv sample_clock (fun _ _ => "0.0001") (Some "3f2a9c1d7b6e") literal_loads.

(** A clock that is set back while a run is recorded: the second and
    the third reading lie before the first, the fourth between them. *)
Definition backward_clock (n : nat) : string :=
  nth n
    ["2024-05-01T12:00:06"; "2024-05-01T12:00:05";
     "2024-05-01T12:00:03"; "2024-05-01T12:00:04"]
    "2024-05-01T12:00:07".

Definition backward_env : Env :=
  mkEnv backward_clock (fun _ _ => "0.0001") (Some "3f2a9c1d7b6e") literal_loads.

(** ** Relations between a world and a later one *)

(** The store is the same; only the clock may have been read. *)
Definition same_store (w w' : World) : Prop :=
  db w' = db w /\ heap w' = heap w /\ context w' = context w /\ (ticks w <= ticks w')%nat.

(** [m] takes every world to one related to it by [R]. *)
Definition stable {A} (R : World -> World -> Prop) (m : M A) : Prop :=
  forall w, R w (snd (m w)).

(** The methods through which the package touches the world; whatever
    they all respect, code built from them respects. *)
Record api_stable (env : Env) (R : World -> World -> Prop) : Prop := {
  st_refl : forall w, R w w;
  st_trans : forall w1 w2 w3, R w1 w2 -> R w2 w3 -> R w1 w3;
  st_init_db : stable R init_db;
  st_init : forall name sha, stable R (RunRecorder_init name sha);
  st_enter : forall self, stable R (RunRecorder_enter env self);
  st_log_step : forall self kind payload, stable R (log_step env self kind payload);
  st_exit : forall self, stable R (RunRecorder_exit env self);
  st_setattr : forall tid v, stable R (setattr_recorder tid v);
  st_time : stable R time_time
}.

(** The end timestamps that are set stay as they are. *)
Definition end_stable (w w' : World) : Prop :=
  forall rid e, end_ts_of rid w = Some (Some e) -> end_ts_of rid w' = Some (Some e).

(** Consistency is kept, and with it the end timestamps. *)
Definition keeps (w w' : World) : Prop :=
  consistent w -> consistent w' /\ end_stable w w'.

(** The order of the stored timestamps is kept. *)
Definition on_time (env : Env) (w w' : World) : Prop :=
  timely env w -> timely env w'.

(** No run disappears. *)
Definition persists (w w' : World) : Prop :=
  forall rid, is_Some (end_ts_of rid w) -> is_Some (end_ts_of rid w').

(** The recorder of run [rid] whose connection is closed. *)
Definition closed_with (self : nat) (rid : Z) (w : World) : Prop :=
  exists r, heap w !! self = Some r /\ conn_open r = false /\ run_id r = Some rid.

Definition stays_closed (self : nat) (rid : Z) (w w' : World) : Prop :=
  closed_with self rid w -> closed_with self rid w'.

(** The store only grows, and the objects below [n] are as they were. *)
Definition frame (n : nat) (w w' : World) : Prop :=
  (length (heap w) <= length (heap w'))%nat /\
  forall i, (i < n)%nat -> heap w' !! i = heap w !! i.

(** The run of the recorder that is active in a thread. *)
Definition active_run (tid : nat) (w : World) : option Z :=
  r ← current_recorder tid w; recorder_run_id r w.

(** What code that calls no traced function can do at most: add steps to
    the active run. *)
Definition quiet (tid : nat) (w w' : World) : Prop :=
  heap w' = heap w /\ context w' = context w /\
  forall d, db w = Some d ->
    exists d' new,
      db w' = Some d' /\ runs d' = runs d /\ seq_runs d' = seq_runs d
      /\ steps d' = (steps d ++ new)%list
      /\ Forall (fun s => Some (steps_run_id s) = active_run tid w) new.

(** ** The world around a call of the wrapper, written out *)

(** The [git_sha] the wrapper gives its recorder. *)
Definition wrapper_sha (env : Env) : string :=
  or_unknown (Some (match git_rev_parse env with
                    | Some out => substring 0 8 out
                    | None => "unknown"
                    end)).

(** The payloads of the two steps of the wrapper; both always encode. *)
Definition start_payload (args kwargs : pystr) : string :=
  match json_dumps (PDict [("args", PStr (prefix 100 args));
                           ("kwargs", PStr (prefix 100 kwargs))]) with
  | Returns s => s
  | Raises _ => EmptyString
  end.

Definition end_payload (env : Env) (t0 t1 : nat) (result : pydata) : string :=
  match json_dumps (PDict [("duration", PFloat (elapsed_repr env t0 t1));
                           ("result_type", PStr (type_name result))]) with
  | Returns s => s
  | Raises _ => EmptyString
  end.

(** The world in which the wrapped function starts: one more run, in
    progress; its [function_start] step; one more recorder, open, holding
    the id of that run and installed as the active one of the thread. *)
Definition entered (env : Env) (tid : nat) (name : string) (args kwargs : pystr)
    (w : World) : World :=
  let d := default empty_tables (db w) in
  mkWorld
    (Some (mkDatabase
             (runs d ++ [mkRun (seq_runs d + 1) name (utcnow_isoformat env (ticks w))
                           None (wrapper_sha env)])
             (steps d ++ [mkStep (seq_steps d + 1) (seq_runs d + 1)
                            (utcnow_isoformat env (S (ticks w)))
                            "function_start" (start_payload args kwargs) None])
             (seq_runs d + 1) (seq_steps d + 1)))
    (heap w ++ [mkRunRecorder name (wrapper_sha env) true (Some (seq_runs d + 1))])
    (<[tid := Some (length (heap w))]> (context w))
    (S (S (S (ticks w)))).

(** ** What a listing shows of an event *)

(** What C3 asks of one [trace_event] call: it returns normally and a
    step of kind [encoding_error] is in the file afterwards. *)
Definition records_placeholder (env : Env) (tid : nat) (event_type : string)
    (data : pydata) (w : World) : Prop :=
  exists w', trace_event env tid event_type data w = (Returns tt, w')
             /\ exists s, s ∈ steps_of w' /\ steps_kind s = "encoding_error".

(** ** Programs and worlds of the examples *)

(** [failing_function] of [tests/test_basic.py]. *)
Definition failing_function : prog :=
  TraceEvent "about_to_fail" (PDict []) (Raise (ValueError "Test error")).

(** [outer_function(5)] of [tests/test_basic.py]: the event before the
    call of [inner_function], the body of [inner_function(5)], and what
    [outer_function] does with the result. *)
Definition outer_start : list (string * pydata) :=
  [("outer_start", PDict [("input", PInt 5)])].

Definition inner_function : prog :=
  TraceEvent "inner_processing" (PDict [("value", PInt 5)]) (Return (PInt 10)).

Definition outer_rest (result : pydata) : prog :=
  TraceEvent "outer_end" (PDict [("result", result)]) (Return result).

(** A recorder that has been entered and left once. *)
Definition once_closed : World :=
  snd (RunRecorder_exit sample_env 0
         (snd (RunRecorder_enter sample_env 0
                 (snd (RunRecorder_init "job" None initial_world))))).



(** A recorder whose [run_id] attribute holds 999 while the file has no
    such run. *)
Definition orphan_recorder : World :=
  mkWorld (Some empty_tables) [mkRunRecorder "job" "unknown" true (Some 999)] ∅ 0%nat.

(** ** More relations between a world and a later one *)

(** A recorder whose connection is closed. *)
Definition closed_at (self : nat) (w : World) : Prop :=
  exists r, heap w !! self = Some r /\ conn_open r = false.

Definition stays_shut (self : nat) (w w' : World) : Prop :=
  closed_at self w -> closed_at self w'.

(** Steps are only ever added, at the end of the table. *)
Definition steps_grow (w w' : World) : Prop :=
  exists new, steps_of w' = (steps_of w ++ new)%list.

(** The recorders made since [w] are all closed in [w']. *)
Definition fresh_closed (w w' : World) : Prop :=
  forall i r, (length (heap w) <= i)%nat -> heap w' !! i = Some r -> conn_open r = false.

(** [simulate_tool_use] and [complex_agent_workflow] of [demo.py], without
    their pauses: what the tools return, [str] of the arguments of the
    search and the text of the response are given. *)
Definition simulate_tool_use (tool input output : string) : prog :=
  TraceEvent "tool_start" (PDict [("tool", PStr tool); ("input", PStr input)])
    (TraceEvent "tool_end" (PDict [("tool", PStr tool); ("output", PStr output)])
       (Return (PStr output))).

Definition complex_agent_workflow
    (task search_args found computed response : string) : prog :=
  TraceEvent "workflow_start" (PDict [("task", PStr task)])
    (TraceEvent "analyzing_task" (PDict [("task", PStr task)])
       (CallTraced "simulate_tool_use" search_args "{}"
          (simulate_tool_use "search" task found)
          (fun search_result =>
             TraceEvent "processing_results" (PDict [("results", search_result)])
               (CallTraced "simulate_tool_use" "('calculator', '42 * 2')" "{}"
                  (simulate_tool_use "calculator" "42 * 2" computed)
                  (fun calc_result =>
                     TraceEvent "generating_response" (PDict [])
                       (TraceEvent "workflow_end" (PDict [("response", PStr response)])
                          (Return (PStr response)))))))).

(** A world in which thread 7 is inside a traced call of its own. *)
Definition two_threads : World :=
  at_call sample_env 7 "worker" "()" "{}" initial_world.

(** Row ids are positive, grow along each table and stay within the
    counters. *)
Definition ids_ordered (w : World) : Prop :=
  forall d, db w = Some d ->
    0 <= seq_runs d /\ 0 <= seq_steps d
    /\ StronglySorted Z.lt (map runs_id (runs d))
    /\ Forall (fun r => 0 < runs_id r <= seq_runs d) (runs d)
    /\ StronglySorted Z.lt (map steps_id (steps d))
    /\ Forall (fun s => 0 < steps_id s <= seq_steps d) (steps d).

Definition keeps_order (w w' : World) : Prop := ids_ordered w -> ids_ordered w'.

(** A run in progress whose id no open recorder holds. *)
Definition abandoned (rid : Z) (w : World) : Prop :=
  end_ts_of rid w = Some None
  /\ forall i r, heap w !! i = Some r -> conn_open r = true -> run_id r <> Some rid.

Definition stays_abandoned (rid : Z) (w w' : World) : Prop :=
  consistent w /\ abandoned rid w -> consistent w' /\ abandoned rid w'.

(** ** viewer.py: the runs and the two endpoints *)




(** What an endpoint gives back: the value FastAPI serialises, the
    [HTTPException] it raised, or the exception that went through it. *)
Inductive response (A : Type) : Type :=
| Ok (a : A)
| HTTPException (status_code : Z) (detail : string)
| Uncaught (e : PyExc).
Arguments Ok {A} a.
Arguments HTTPException {A} status_code detail.
Arguments Uncaught {A} e.




(** ** tracer.py: the LangChain callback handler *)

(** [list(d.keys())] of a [dict] with string keys, in insertion order. *)
Definition dict_keys (d : list (string * pydata)) : pydata :=
  PList (map (fun kv : string * pydata => PStr (fst kv)) d).

Definition on_chain_end (env : Env) (tid : nat) (outputs : list (string * pydata)) : M unit :=
  trace_event env tid "chain_end" (PDict [("outputs", dict_keys outputs)]).

Definition on_tool_end (env : Env) (tid : nat) (output : pystr) : M unit :=
  trace_event env tid "tool_end" (PDict [("output", PStr (prefix 100 output))]).

(** Thread [tid] is inside a session: its slot holds a recorder that is
    open on run [rid], and the tables exist. *)
Definition in_session (tid : nat) (rid : Z) (w : World) : Prop :=
  exists self r,
    current_recorder tid w = Some self /\ heap w !! self = Some r
    /\ conn_open r = true /\ run_id r = Some rid /\ is_Some (db w).

(** The row [s] is the event [e], recorded in run [rid]. *)
Definition records (rid : Z) (e : string * pydata) (s : Step) : Prop :=
  steps_kind s = fst e /\ steps_run_id s = rid
  /\ exists payload : string, json_dumps (snd e) = Returns payload /\ steps_payload s = payload.

(** The step that a [trace_event] made at [w] adds. *)
Definition step_added (env : Env) (rid : Z) (kind payload : string) (w : World) : Step :=
  mkStep (seq_steps (default empty_tables (db w)) + 1) rid
    (utcnow_isoformat env (ticks w)) kind payload None.

(** The world after a [trace_event] that got through added step [s]. *)
Definition with_step (s : Step) (w : World) : World :=
  let d := default empty_tables (db w) in
  mkWorld (Some (mkDatabase (runs d) (steps d ++ [s]) (seq_runs d) (seq_steps d + 1)))
    (heap w) (context w) (S (ticks w)).

(** ** integrations/crewai.py *)




























(** ** Tactics *)

Ltac unfold_monad :=
  unfold conn_check, setattr_run_id, conn_close, sql, utcnow, time_time in *;
  unfold deref, bind, ret, raise, lift in *.

(** After a case split: push the equations through the computation [E]. *)
Ltac split_on E :=
  simpl in E;
  repeat match goal with
         | H : ?t = _ |- _ =>
             tryif constr_eq H E then fail
             else match type of E with context [t] => rewrite H in E; simpl in E end
         end.

(** * Proofs *)

(** ** What each method does, case by case *)

Lemma same_store_refl w : same_store w w.
Proof. by repeat split. Qed.

Lemma same_store_tick w : same_store w (tick w).
Proof. repeat split; simpl; lia. Qed.

#[local] Hint Resolve same_store_refl same_store_tick : core.

Section Methods.

Variable env : Env.

Let now (w : World) : string := utcnow_isoformat env (ticks w).

Lemma init_db_cases w :
  init_db w = (Returns tt, w) /\ is_Some (db w) \/
  init_db w = (Returns tt, mkWorld (Some empty_tables) (heap w) (context w) (ticks w))
  /\ db w = None.
Proof. unfold init_db, set_db. destruct (db w) eqn:E; eauto. Qed.

Lemma RunRecorder_init_spec name sha w :
  exists d r,
    RunRecorder_init name sha w =
      (Returns (length (heap w)),
       mkWorld (Some d) (heap w ++ [r]) (context w) (ticks w))
    /\ conn_open r = true /\ run_id r = None
    /\ (db w = Some d \/ db w = None /\ d = empty_tables).
Proof.
  unfold RunRecorder_init, init_db, bind, set_heap, set_db.
  destruct (db w) eqn:E; simpl; rewrite ?E; eexists _, _; eauto 10.
Qed.

Lemma RunRecorder_enter_cases self w :
  (exists e w', RunRecorder_enter env self w = (Raises e, w') /\ same_store w w') \/
  (exists r d,
     heap w !! self = Some r /\ conn_open r = true /\ db w = Some d /\
     RunRecorder_enter env self w =
       (Returns self,
        mkWorld
          (Some (mkDatabase
                   (runs d ++ [mkRun (seq_runs d + 1) (func_name r) (now w) None (git_sha r)])
                   (steps d) (seq_runs d + 1) (seq_steps d)))
          (<[self := mkRunRecorder (func_name r) (git_sha r) true
                       (Some (seq_runs d + 1))]> (heap w))
          (context w) (S (ticks w)))).
Proof.
  destruct (RunRecorder_enter env self w) as [o w'] eqn:E.
  unfold RunRecorder_enter in E. unfold_monad.
  destruct (heap w !! self) as [r|] eqn:Hr; split_on E; [|left; simplify_eq; eauto].
  destruct (conn_open r) eqn:Ho; split_on E; [|left; simplify_eq; eauto].
  destruct (db w) as [d|] eqn:Hd; split_on E; [|left; simplify_eq; eauto].
  right. exists r, d. simplify_eq. by repeat split.
Qed.

Lemma log_step_cases self kind payload w :
  (exists e w', log_step env self kind payload w = (Raises e, w') /\ same_store w w') \/
  (exists r rid d,
     heap w !! self = Some r /\ conn_open r = true /\ run_id r = Some rid /\
     db w = Some d /\
     log_step env self kind payload w =
       (Returns tt,
        mkWorld
          (Some (mkDatabase (runs d)
                   (steps d ++ [mkStep (seq_steps d + 1) rid (now w) kind payload None])
                   (seq_runs d) (seq_steps d + 1)))
          (heap w) (context w) (S (ticks w)))).
Proof.
  destruct (log_step env self kind payload w) as [o w'] eqn:E.
  unfold log_step in E. unfold_monad.
  destruct (heap w !! self) as [r|] eqn:Hr; split_on E; [|left; simplify_eq; eauto].
  destruct (run_id r) as [rid|] eqn:Hi; split_on E; [|left; simplify_eq; eauto].
  destruct (conn_open r) eqn:Ho; split_on E; [|left; simplify_eq; eauto].
  destruct (db w) as [d|] eqn:Hd; split_on E; [|left; simplify_eq; eauto].
  right. exists r, rid, d. simplify_eq. by repeat split.
Qed.

Lemma RunRecorder_exit_cases self w :
  (exists e w', RunRecorder_exit env self w = (Raises e, w') /\ same_store w w') \/
  (exists r d,
     heap w !! self = Some r /\ conn_open r = true /\ db w = Some d /\
     RunRecorder_exit env self w =
       (Returns tt,
        mkWorld
          (Some (mkDatabase (map (set_end_ts (now w) (run_id r)) (runs d))
                   (steps d) (seq_runs d) (seq_steps d)))
          (<[self := mkRunRecorder (func_name r) (git_sha r) false (run_id r)]> (heap w))
          (context w) (S (ticks w)))).
Proof.
  destruct (RunRecorder_exit env self w) as [o w'] eqn:E.
  unfold RunRecorder_exit in E. unfold_monad.
  destruct (heap w !! self) as [r|] eqn:Hr; split_on E; [|left; simplify_eq; eauto].
  destruct (conn_open r) eqn:Ho; split_on E; [|left; simplify_eq; eauto].
  destruct (db w) as [d|] eqn:Hd; split_on E; [|left; simplify_eq; eauto].
  right. exists r, d. simplify_eq. by repeat split.
Qed.

Lemma RunRecorder_init_eq name sha w :
  RunRecorder_init name sha w =
    (Returns (length (heap w)),
     mkWorld (Some (default empty_tables (db w)))
       (heap w ++ [mkRunRecorder name (or_unknown sha) true None])
       (context w) (ticks w)).
Proof.
  unfold RunRecorder_init, init_db, bind, set_heap, set_db.
  by destruct (db w) eqn:E; simpl; rewrite ?E.
Qed.

Lemma RunRecorder_enter_ok self w r d :
  heap w !! self = Some r -> conn_open r = true -> db w = Some d ->
  RunRecorder_enter env self w =
    (Returns self,
     mkWorld
       (Some (mkDatabase
                (runs d ++ [mkRun (seq_runs d + 1) (func_name r) (now w) None (git_sha r)])
                (steps d) (seq_runs d + 1) (seq_steps d)))
       (<[self := mkRunRecorder (func_name r) (git_sha r) true
                    (Some (seq_runs d + 1))]> (heap w))
       (context w) (S (ticks w))).
Proof.
  intros Hr Ho Hd.
  destruct (RunRecorder_enter env self w) as [o w'] eqn:E.
  unfold RunRecorder_enter in E. unfold_monad. split_on E. by simplify_eq.
Qed.

Lemma log_step_ok self kind payload w r rid d :
  heap w !! self = Some r -> conn_open r = true -> run_id r = Some rid ->
  db w = Some d ->
  log_step env self kind payload w =
    (Returns tt,
     mkWorld
       (Some (mkDatabase (runs d)
                (steps d ++ [mkStep (seq_steps d + 1) rid (now w) kind payload None])
                (seq_runs d) (seq_steps d + 1)))
       (heap w) (context w) (S (ticks w))).
Proof.
  intros Hr Ho Hi Hd.
  destruct (log_step env self kind payload w) as [o w'] eqn:E.
  unfold log_step in E. unfold_monad. split_on E. by simplify_eq.
Qed.

Lemma log_step_unset self kind payload w r :
  heap w !! self = Some r -> run_id r = None ->
  log_step env self kind payload w = (Raises AssertionError, w).
Proof.
  intros Hr Hi.
  destruct (log_step env self kind payload w) as [o w'] eqn:E.
  unfold log_step in E. unfold_monad. split_on E. by simplify_eq.
Qed.

Lemma log_step_closed self kind payload w r rid :
  heap w !! self = Some r -> run_id r = Some rid -> conn_open r = false ->
  log_step env self kind payload w = (Raises ProgrammingError, tick w).
Proof.
  intros Hr Hi Ho.
  destruct (log_step env self kind payload w) as [o w'] eqn:E.
  unfold log_step in E. unfold_monad. split_on E. by simplify_eq.
Qed.

Lemma RunRecorder_exit_ok self w r d :
  heap w !! self = Some r -> conn_open r = true -> db w = Some d ->
  RunRecorder_exit env self w =
    (Returns tt,
     mkWorld
       (Some (mkDatabase (map (set_end_ts (now w) (run_id r)) (runs d))
                (steps d) (seq_runs d) (seq_steps d)))
       (<[self := mkRunRecorder (func_name r) (git_sha r) false (run_id r)]> (heap w))
       (context w) (S (ticks w))).
Proof.
  intros Hr Ho Hd.
  destruct (RunRecorder_exit env self w) as [o w'] eqn:E.
  unfold RunRecorder_exit in E. unfold_monad. split_on E. by simplify_eq.
Qed.

Lemma RunRecorder_exit_closed self w r :
  heap w !! self = Some r -> conn_open r = false ->
  RunRecorder_exit env self w = (Raises ProgrammingError, tick w).
Proof.
  intros Hr Ho.
  destruct (RunRecorder_exit env self w) as [o w'] eqn:E.
  unfold RunRecorder_exit in E. unfold_monad. split_on E. by simplify_eq.
Qed.

End Methods.

(** ** Relations that every call respects *)

Lemma get_steps_eq env rid w :
  get_steps env rid w =
    (match db w with
     | None => Raises (OperationalError "steps")
     | Some d =>
         if in_int64 rid then fetch_steps env (select_steps rid d)
         else Raises (OverflowError "Python int too large to convert to SQLite INTEGER")
     end, w).
Proof.
  unfold get_steps, sql, bind, raise, lift, set_db.
  destruct w as [[d|] h c t]; [|reflexivity]. simpl.
  destruct (in_int64 rid); reflexivity.
Qed.

Lemma get_steps_world env rid w : snd (get_steps env rid w) = w.
Proof. by rewrite get_steps_eq. Qed.

Section Stable.

Variable env : Env.
Variable R : World -> World -> Prop.
Hypothesis HR : api_stable env R.

Lemma stable_ret {A} (a : A) : stable R (ret a).
Proof. intros w. apply (st_refl _ _ HR). Qed.

Lemma stable_raise {A} e : stable R (@raise A e).
Proof. intros w. apply (st_refl _ _ HR). Qed.

Lemma stable_lift {A} (o : outcome A) : stable R (lift o).
Proof. intros w. apply (st_refl _ _ HR). Qed.

Lemma stable_bind {A B} (m : M A) (k : A -> M B) :
  stable R m -> (forall a, stable R (k a)) -> stable R (bind m k).
Proof.
  intros Hm Hk w. unfold bind. specialize (Hm w).
  destruct (m w) as [[a|e] w1]; simpl in *; [|done].
  eapply (st_trans _ _ HR); [exact Hm | apply Hk].
Qed.

Lemma stable_try_finally {A} (body : M A) fin :
  stable R body -> stable R fin -> stable R (try_finally body fin).
Proof.
  intros Hb Hf w. unfold try_finally. specialize (Hb w).
  destruct (body w) as [o w1]. specialize (Hf w1).
  destruct (fin w1) as [[[]|e] w2]; simpl in *; eapply (st_trans _ _ HR); eauto.
Qed.

Lemma stable_with {A B} (enter : M B) exit (body : M A) :
  stable R enter -> stable R exit -> stable R body ->
  stable R (with_ enter exit body).
Proof.
  intros He Hx Hb. unfold with_. apply stable_bind; [done|].
  intros _ w. specialize (Hb w). destruct (body w) as [o w1].
  specialize (Hx w1).
  destruct (exit w1) as [[[]|e] w2]; simpl in *; eapply (st_trans _ _ HR); eauto.
Qed.

Lemma stable_trace_event tid ty data : stable R (trace_event env tid ty data).
Proof.
  unfold trace_event. apply stable_bind; [intros w; apply (st_refl _ _ HR)|].
  intros [r|]; [|apply stable_ret].
  apply stable_bind; [apply stable_lift|]. intros. apply (st_log_step _ _ HR).
Qed.

Lemma stable_traced tid name args kwargs func :
  stable R func -> stable R (traced env tid name args kwargs func).
Proof.
  intros Hf. unfold traced.
  apply stable_bind; [apply stable_ret|]. intros sha.
  apply stable_bind; [apply (st_init _ _ HR)|]. intros recorder.
  apply stable_bind; [intros w; apply (st_refl _ _ HR)|]. intros old.
  apply stable_bind; [apply (st_setattr _ _ HR)|]. intros _.
  apply stable_try_finally; [|apply (st_setattr _ _ HR)].
  apply stable_with; [apply (st_enter _ _ HR)|apply (st_exit _ _ HR)|].
  apply stable_bind; [apply stable_trace_event|]. intros _.
  apply stable_bind; [apply (st_time _ _ HR)|]. intros t0.
  apply stable_bind; [done|]. intros v.
  apply stable_bind; [apply (st_time _ _ HR)|]. intros t1.
  apply stable_bind; [apply stable_trace_event|]. intros _. apply stable_ret.
Qed.

Lemma stable_exec tid p : stable R (exec env tid p).
Proof.
  induction p as [v|e|ty d k IH|n a kw body IHb k IHk|body IHb handler IHh k IHk]; simpl.
  - apply stable_ret.
  - apply stable_raise.
  - apply stable_bind; [apply stable_trace_event|done].
  - apply stable_bind; [by apply stable_traced|done].
  - intros w. specialize (IHb w). destruct (exec env tid body w) as [[v|e] w1]; simpl in *.
    + eapply (st_trans _ _ HR); [exact IHb|apply IHk].
    + eapply (st_trans _ _ HR); [exact IHb|].
      apply (stable_bind (exec env tid (handler e)) (fun v => exec env tid (k v))); auto.
Qed.

Lemma stable_perform c w : R w (perform env c w).
Proof.
  destruct c; simpl.
  - apply (st_init_db _ _ HR).
  - apply (st_init _ _ HR).
  - apply (st_enter _ _ HR).
  - apply (st_log_step _ _ HR).
  - apply (st_exit _ _ HR).
  - apply stable_exec.
  - rewrite get_steps_world. apply (st_refl _ _ HR).
Qed.

Lemma stable_after calls w : R w (after env calls w).
Proof.
  revert w. induction calls as [|c cs IH]; intros w; simpl.
  - apply (st_refl _ _ HR).
  - eapply (st_trans _ _ HR); [apply stable_perform|apply IH].
Qed.

End Stable.

(** ** Rows and lookups *)

Lemma find_app {A} (f : A -> bool) (l l' : list A) :
  List.find f (l ++ l') =
  match List.find f l with Some x => Some x | None => List.find f l' end.
Proof. induction l as [|x l IH]; simpl; [done|]. by destruct (f x). Qed.

Lemma set_end_ts_id ts o r : runs_id (set_end_ts ts o r) = runs_id r.
Proof. unfold set_end_ts. destruct o; [|done]. by destruct (runs_id r =? z). Qed.

Lemma set_end_ts_start ts o r : runs_start_ts (set_end_ts ts o r) = runs_start_ts r.
Proof. unfold set_end_ts. destruct o; [|done]. by destruct (runs_id r =? z). Qed.

Lemma find_map_set_end_ts ts o rid (l : list Run) :
  List.find (fun r => runs_id r =? rid) (map (set_end_ts ts o) l) =
  set_end_ts ts o <$> List.find (fun r => runs_id r =? rid) l.
Proof.
  induction l as [|x l IH]; simpl; [done|].
  rewrite set_end_ts_id. by destruct (runs_id x =? rid).
Qed.

Lemma find_run_Some rid d r :
  find_run rid d = Some r -> r ∈ runs d /\ runs_id r = rid.
Proof.
  unfold find_run. intros H. apply find_some in H as [Hin Hid].
  split; [by apply list_elem_of_In | lia].
Qed.

Lemma find_run_above rid (l : list Run) s :
  (forall r, r ∈ l -> runs_id r <= s) -> s < rid ->
  List.find (fun r => runs_id r =? rid) l = None.
Proof.
  intros Hb Hlt. induction l as [|x l IH]; simpl; [done|].
  assert (runs_id x <= s) by (apply Hb; left).
  destruct (runs_id x =? rid) eqn:E; [lia|].
  apply IH. intros r Hr. apply Hb. by right.
Qed.

Lemma end_ts_of_Some rid w o :
  end_ts_of rid w = Some o ->
  exists d r, db w = Some d /\ find_run rid d = Some r /\ runs_end_ts r = o.
Proof.
  unfold end_ts_of. destruct (db w) as [d|]; [|done].
  destruct (find_run rid d) as [r|] eqn:E; [|done].
  simpl. intros [= <-]. eauto.
Qed.

Lemma consistent_same w w' :
  db w' = db w -> heap w' = heap w -> consistent w -> consistent w'.
Proof.
  intros Hd Hh [H1 H2 H3 H4].
  split; unfold steps_of, runs_of, end_ts_of in *; rewrite ?Hd, ?Hh; eauto.
Qed.

Lemma end_stable_same w w' : db w' = db w -> end_stable w w'.
Proof. intros Hd rid e. unfold end_ts_of. by rewrite Hd. Qed.

Lemma same_store_consistent w w' : same_store w w' -> consistent w -> consistent w'.
Proof. intros (Hd & Hh & _). by apply consistent_same. Qed.

Lemma same_store_end_stable w w' : same_store w w' -> end_stable w w'.
Proof. intros (Hd & _). by apply end_stable_same. Qed.

(** ** The calls keep the file and the recorders consistent *)

Section Keeps.

Variable env : Env.

Lemma keeps_same w w' : db w' = db w -> heap w' = heap w -> keeps w w'.
Proof. intros Hd Hh Hc. split; [by eapply consistent_same|by apply end_stable_same]. Qed.

Lemma keeps_init_db : stable keeps init_db.
Proof.
  intros w Hc. destruct (init_db_cases w) as [[-> _]|[-> Hd]]; simpl.
  { split; [done|by intros ??]. }
  destruct Hc as [H1 H2 H3 H4]. split.
  - split; simpl.
    + intros d r [= <-]. simpl. by intros ?%elem_of_nil.
    + unfold steps_of. simpl. by intros s ?%elem_of_nil.
    + intros i r rid Hi Ho Hr. specialize (H3 i r rid Hi Ho Hr).
      unfold end_ts_of in H3. by rewrite Hd in H3.
    + exact H4.
  - intros rid e. unfold end_ts_of. by rewrite Hd.
Qed.

Lemma keeps_init name sha : stable keeps (RunRecorder_init name sha).
Proof.
  intros w Hc.
  destruct (RunRecorder_init_spec name sha w) as (d & r & -> & Ho & Hr & Hd). simpl.
  assert (Hc' : consistent (mkWorld (Some d) (heap w) (context w) (ticks w))
                /\ end_stable w (mkWorld (Some d) (heap w) (context w) (ticks w))).
  { destruct Hd as [Hd|[Hd ->]].
    - by apply keeps_same.
    - pose proof (keeps_init_db w Hc) as H.
      destruct (init_db_cases w) as [[_ [? ?]]|[E _]]; [congruence|].
      by rewrite E in H. }
  destruct Hc' as [[H1 H2 H3 H4] Hs]. split; [|exact Hs].
  split; simpl in *; try done.
  - intros i r0 rid Hi. apply lookup_app_Some in Hi as [Hi|[_ Hi]]; [eauto|].
    apply list_lookup_singleton_Some in Hi as [_ <-]. congruence.
  - intros i j r1 r2 rid Hi Hj.
    apply lookup_app_Some in Hi as [Hi|[_ Hi]];
      [|apply list_lookup_singleton_Some in Hi as [_ <-]; congruence].
    apply lookup_app_Some in Hj as [Hj|[_ Hj]];
      [|apply list_lookup_singleton_Some in Hj as [_ <-]; congruence].
    eauto.
Qed.

Lemma keeps_enter self : stable keeps (RunRecorder_enter env self).
Proof.
  intros w Hc.
  destruct (RunRecorder_enter_cases env self w)
    as [(e & w' & -> & Hs)|(r & d & Hr & Ho & Hd & ->)]; simpl.
  { split; [by eapply same_store_consistent|by apply same_store_end_stable]. }
  destruct Hc as [H1 H2 H3 H4].
  assert (Hfresh : List.find (fun r => runs_id r =? seq_runs d + 1) (runs d) = None).
  { apply find_run_above with (seq_runs d); [intros r0 Hin; by apply (H1 d)|lia]. }
  assert (Hold : forall i r0 rid, heap w !! i = Some r0 -> conn_open r0 = true ->
                   run_id r0 = Some rid -> rid <= seq_runs d).
  { intros i r0 rid Hi Hop Hid. specialize (H3 i r0 rid Hi Hop Hid).
    apply end_ts_of_Some in H3 as (d' & r' & Hd' & Hf & _).
    assert (d' = d) as -> by congruence.
    apply find_run_Some in Hf as [Hin <-]. by apply (H1 d). }
  split.
  - split; simpl.
    + intros d' r0 [= <-]. simpl. intros [Hin| ->%list_elem_of_singleton]%elem_of_app.
      * specialize (H1 d r0 Hd Hin). lia.
      * simpl. lia.
    + unfold steps_of, runs_of in *. simpl. rewrite Hd in H2.
      intros s Hs. destruct (H2 s Hs) as (r0 & Hin & Hid).
      exists r0. split; [|done]. apply elem_of_app. by left.
    + intros i r0 rid Hi Hop Hid. unfold end_ts_of, find_run. simpl.
      rewrite find_app.
      apply list_lookup_insert_Some in Hi as [(-> & <- & _)|(Hne & Hi)].
      * simpl in Hid. injection Hid as <-. rewrite Hfresh. simpl.
        by rewrite Z.eqb_refl.
      * specialize (H3 i r0 rid Hi Hop Hid). unfold end_ts_of, find_run in H3.
        rewrite Hd in H3.
        destruct (List.find (fun r => runs_id r =? rid) (runs d)); [done|].
        discriminate.
    + intros i j r1 r2 rid Hi Hj Ho1 Ho2 Hid1 Hid2.
      apply list_lookup_insert_Some in Hi as [(-> & <- & _)|(Hni & Hi)];
        apply list_lookup_insert_Some in Hj as [(-> & <- & _)|(Hnj & Hj)];
        simpl in *; try done.
      * injection Hid1 as <-. specialize (Hold j r2 _ Hj Ho2 Hid2). lia.
      * injection Hid2 as <-. specialize (Hold i r1 _ Hi Ho1 Hid1). lia.
      * eauto.
  - intros rid e. unfold end_ts_of, find_run. rewrite Hd. simpl. rewrite find_app.
    destruct (List.find (fun r => runs_id r =? rid) (runs d)); [done|]. discriminate.
Qed.

Lemma keeps_log_step self kind payload : stable keeps (log_step env self kind payload).
Proof.
  intros w Hc.
  destruct (log_step_cases env self kind payload w)
    as [(e & w' & -> & Hs)|(r & rid & d & Hr & Ho & Hid & Hd & ->)]; simpl.
  { split; [by eapply same_store_consistent|by apply same_store_end_stable]. }
  destruct Hc as [H1 H2 H3 H4]. split.
  - split; simpl.
    + intros d' r0 [= <-]. simpl. by apply H1.
    + unfold steps_of, runs_of in *. simpl. rewrite Hd in H2.
      intros s [Hs| ->%list_elem_of_singleton]%elem_of_app; [by apply H2|].
      simpl. specialize (H3 self r rid Hr Ho Hid).
      apply end_ts_of_Some in H3 as (d' & r' & Hd' & Hf & _).
      assert (d' = d) as -> by congruence.
      apply find_run_Some in Hf as [Hin <-]. eauto.
    + intros i r0 rid0 Hi Hop Hid0. specialize (H3 i r0 rid0 Hi Hop Hid0).
      unfold end_ts_of, find_run in *. by rewrite Hd in H3.
    + exact H4.
  - intros rid0 e. unfold end_ts_of, find_run. by rewrite Hd.
Qed.

Lemma keeps_exit self : stable keeps (RunRecorder_exit env self).
Proof.
  intros w Hc.
  destruct (RunRecorder_exit_cases env self w)
    as [(e & w' & -> & Hs)|(r & d & Hr & Ho & Hd & ->)]; simpl.
  { split; [by eapply same_store_consistent|by apply same_store_end_stable]. }
  destruct Hc as [H1 H2 H3 H4].
  set (ts := utcnow_isoformat env (ticks w)).
  assert (Hother : forall rid o,
            run_id r <> Some rid -> end_ts_of rid w = Some o ->
            set_end_ts ts (run_id r) <$>
              List.find (fun r => runs_id r =? rid) (runs d) =
            List.find (fun r => runs_id r =? rid) (runs d)).
  { intros rid o Hne Hend.
    apply end_ts_of_Some in Hend as (d' & r' & Hd' & Hf & _).
    assert (d' = d) as -> by congruence.
    unfold find_run in Hf. rewrite Hf. simpl. f_equal.
    apply find_run_Some in Hf as [_ Hid]. unfold set_end_ts.
    destruct (run_id r) as [i|]; [|done].
    destruct (runs_id r' =? i) eqn:E; [|done].
    apply Z.eqb_eq in E. congruence. }
  split.
  - split; simpl.
    + intros d' r0 [= <-]. simpl. intros Hin.
      apply list_elem_of_fmap in Hin as (r1 & -> & Hin).
      rewrite set_end_ts_id. by apply (H1 d).
    + unfold steps_of, runs_of in *. simpl. rewrite Hd in H2.
      intros s Hs. destruct (H2 s Hs) as (r0 & Hin & Hid).
      exists (set_end_ts ts (run_id r) r0). rewrite set_end_ts_id. split; [|done].
      apply list_elem_of_fmap. eauto.
    + intros i r0 rid Hi Hop Hid.
      apply list_lookup_insert_Some in Hi as [(-> & <- & _)|(Hne & Hi)]; [done|].
      pose proof (H3 i r0 rid Hi Hop Hid) as Hend.
      unfold end_ts_of, find_run. simpl. rewrite find_map_set_end_ts.
      rewrite (Hother rid None); [|intros Heq|done].
      * unfold end_ts_of, find_run in Hend. by rewrite Hd in Hend.
      * apply Hne. symmetry. by apply (H4 i self r0 r rid).
    + intros i j r1 r2 rid Hi Hj Ho1 Ho2 Hid1 Hid2.
      apply list_lookup_insert_Some in Hi as [(-> & <- & _)|(Hni & Hi)]; [done|].
      apply list_lookup_insert_Some in Hj as [(-> & <- & _)|(Hnj & Hj)]; [done|].
      eauto.
  - intros rid e Hend. unfold end_ts_of, find_run. simpl. rewrite find_map_set_end_ts.
    rewrite (Hother rid (Some e)); [|intros Heq|done].
    + unfold end_ts_of, find_run in Hend. by rewrite Hd in Hend.
    + specialize (H3 self r rid Hr Ho Heq). congruence.
Qed.

Lemma keeps_api : api_stable env keeps.
Proof.
  split.
  - intros w Hc. split; [done|by intros ??].
  - intros w1 w2 w3 H12 H23 Hc. destruct (H12 Hc) as [Hc2 Hs12].
    destruct (H23 Hc2) as [Hc3 Hs23]. split; [done|].
    intros rid e He. by apply Hs23, Hs12.
  - apply keeps_init_db.
  - apply keeps_init.
  - apply keeps_enter.
  - apply keeps_log_step.
  - apply keeps_exit.
  - intros tid v w. by apply keeps_same.
  - intros w. by apply keeps_same.
Qed.

End Keeps.

(** ** With a clock that never goes back, stored timestamps are in order *)

Section OnTime.

Variable env : Env.
Hypothesis Hclock : clock_monotone env.

Lemma timely_same w w' :
  runs_of w' = runs_of w -> steps_of w' = steps_of w -> (ticks w <= ticks w')%nat ->
  on_time env w w'.
Proof.
  intros Hr Hs Ht [H1 H2 H3]. split; rewrite ?Hr, ?Hs; [| |done].
  - intros r t Hin Hle. apply H1; [done|lia].
  - intros s t Hin Hle. apply H2; [done|lia].
Qed.

Lemma same_store_timely w w' : same_store w w' -> on_time env w w'.
Proof.
  intros (Hd & _ & _ & Ht). apply timely_same; [| |done]; unfold runs_of, steps_of;
    by rewrite Hd.
Qed.

Lemma on_time_init_db : stable (on_time env) init_db.
Proof.
  intros w. destruct (init_db_cases w) as [[-> _]|[-> Hd]]; simpl; [by intros ?|].
  apply timely_same; unfold runs_of, steps_of; simpl; rewrite ?Hd; done.
Qed.

Lemma on_time_init name sha : stable (on_time env) (RunRecorder_init name sha).
Proof.
  intros w.
  destruct (RunRecorder_init_spec name sha w) as (d & r & -> & _ & _ & Hd). simpl.
  apply timely_same; unfold runs_of, steps_of; simpl; [| |done];
    destruct Hd as [->|[-> ->]]; done.
Qed.

Lemma on_time_enter self : stable (on_time env) (RunRecorder_enter env self).
Proof.
  intros w.
  destruct (RunRecorder_enter_cases env self w)
    as [(e & w' & -> & Hs)|(r & d & Hr & Ho & Hd & ->)]; simpl.
  { by apply same_store_timely. }
  intros [H1 H2 H3]. unfold runs_of, steps_of in *. rewrite Hd in *.
  split; simpl; [| |done].
  - intros r0 t [Hin| ->%list_elem_of_singleton]%elem_of_app Hle.
    + apply H1; [done|lia].
    + simpl. apply Hclock. lia.
  - intros s t Hin Hle. apply H2; [done|lia].
Qed.

Lemma on_time_log_step self kind payload :
  stable (on_time env) (log_step env self kind payload).
Proof.
  intros w.
  destruct (log_step_cases env self kind payload w)
    as [(e & w' & -> & Hs)|(r & rid & d & Hr & Ho & Hid & Hd & ->)]; simpl.
  { by apply same_store_timely. }
  intros [H1 H2 H3]. unfold runs_of, steps_of in *. rewrite Hd in *.
  split; simpl.
  - intros r0 t Hin Hle. apply H1; [done|lia].
  - intros s t [Hin| ->%list_elem_of_singleton]%elem_of_app Hle.
    + apply H2; [done|lia].
    + simpl. apply Hclock. lia.
  - apply StronglySorted_app_2; [|done|repeat constructor].
    intros s1 s2 Hin ->%list_elem_of_singleton. unfold ts_le. simpl. by apply H2.
Qed.

Lemma on_time_exit self : stable (on_time env) (RunRecorder_exit env self).
Proof.
  intros w.
  destruct (RunRecorder_exit_cases env self w)
    as [(e & w' & -> & Hs)|(r & d & Hr & Ho & Hd & ->)]; simpl.
  { by apply same_store_timely. }
  intros [H1 H2 H3]. unfold runs_of, steps_of in *. rewrite Hd in *.
  split; simpl; [| |done].
  - intros r0 t Hin Hle. apply list_elem_of_fmap in Hin as (r1 & -> & Hin).
    rewrite set_end_ts_start. apply H1; [done|lia].
  - intros s t Hin Hle. apply H2; [done|lia].
Qed.

Lemma on_time_api : api_stable env (on_time env).
Proof.
  split.
  - by intros w H.
  - intros w1 w2 w3 H12 H23 H. by apply H23, H12.
  - apply on_time_init_db.
  - apply on_time_init.
  - apply on_time_enter.
  - apply on_time_log_step.
  - apply on_time_exit.
  - intros tid v w. by apply timely_same.
  - intros w. apply timely_same; simpl; try done. lia.
Qed.

End OnTime.

(** ** Runs are never deleted, closed connections never reopen *)

Section Monotone.

Variable env : Env.

Lemma persists_same w w' : db w' = db w -> persists w w'.
Proof. intros Hd rid. unfold end_ts_of. by rewrite Hd. Qed.

Lemma persists_api : api_stable env persists.
Proof.
  split.
  - by intros w rid.
  - intros w1 w2 w3 H12 H23 rid H. by apply H23, H12.
  - intros w. destruct (init_db_cases w) as [[-> _]|[-> Hd]]; simpl; [by intros ?|].
    intros rid. unfold end_ts_of. rewrite Hd. by intros [? ?].
  - intros name sha w.
    destruct (RunRecorder_init_spec name sha w) as (d & r & -> & _ & _ & Hd). simpl.
    intros rid. unfold end_ts_of. simpl. destruct Hd as [->|[-> ->]]; [done|].
    by intros [? ?].
  - intros self w.
    destruct (RunRecorder_enter_cases env self w)
      as [(e & w' & -> & Hs)|(r & d & Hr & Ho & Hd & ->)]; simpl.
    { apply persists_same, Hs. }
    intros rid. unfold end_ts_of, find_run. rewrite Hd. simpl. rewrite find_app.
    destruct (List.find _ (runs d)); simpl; [eauto|]. by intros [? ?].
  - intros self kind payload w.
    destruct (log_step_cases env self kind payload w)
      as [(e & w' & -> & Hs)|(r & rid & d & Hr & Ho & Hid & Hd & ->)]; simpl.
    { apply persists_same, Hs. }
    intros rid0. unfold end_ts_of, find_run. by rewrite Hd.
  - intros self w.
    destruct (RunRecorder_exit_cases env self w)
      as [(e & w' & -> & Hs)|(r & d & Hr & Ho & Hd & ->)]; simpl.
    { apply persists_same, Hs. }
    intros rid. unfold end_ts_of, find_run. rewrite Hd. simpl.
    rewrite find_map_set_end_ts.
    destruct (List.find _ (runs d)); simpl; [eauto|]. by intros [? ?].
  - intros tid v w. by apply persists_same.
  - intros w. by apply persists_same.
Qed.

Lemma stays_closed_same self rid w w' : heap w' = heap w -> stays_closed self rid w w'.
Proof. intros Hh. unfold stays_closed, closed_with. by rewrite Hh. Qed.

Lemma stays_closed_api self rid : api_stable env (stays_closed self rid).
Proof.
  split.
  - by intros w H.
  - intros w1 w2 w3 H12 H23 H. by apply H23, H12.
  - intros w. destruct (init_db_cases w) as [[-> _]|[-> Hd]]; simpl; [by intros ?|].
    by apply stays_closed_same.
  - intros name sha w.
    destruct (RunRecorder_init_spec name sha w) as (d & r & -> & _ & _ & Hd). simpl.
    intros (r0 & Hr0 & Hc). exists r0. split; [|done]. simpl.
    by apply lookup_app_l_Some.
  - intros self' w.
    destruct (RunRecorder_enter_cases env self' w)
      as [(e & w' & -> & Hs)|(r & d & Hr & Ho & Hd & ->)]; simpl.
    { apply stays_closed_same, Hs. }
    intros (r0 & Hr0 & Hc & Hid). exists r0. split; [|done]. simpl.
    rewrite list_lookup_insert_ne; [done|]. intros ->. congruence.
  - intros self' kind payload w.
    destruct (log_step_cases env self' kind payload w)
      as [(e & w' & -> & Hs)|(r & rid' & d & Hr & Ho & Hid & Hd & ->)]; simpl.
    { apply stays_closed_same, Hs. }
    by apply stays_closed_same.
  - intros self' w.
    destruct (RunRecorder_exit_cases env self' w)
      as [(e & w' & -> & Hs)|(r & d & Hr & Ho & Hd & ->)]; simpl.
    { apply stays_closed_same, Hs. }
    intros (r0 & Hr0 & Hc & Hid). exists r0. split; [|done]. simpl.
    rewrite list_lookup_insert_ne; [done|]. intros ->. congruence.
  - intros tid v w. by apply stays_closed_same.
  - intros w. by apply stays_closed_same.
Qed.

End Monotone.

(** ** The two halves of the wrapper *)

Lemma lookup_snoc_last {A} (l : list A) (x : A) : (l ++ [x])%list !! length l = Some x.
Proof. by apply list_lookup_middle. Qed.

Lemma insert_snoc_last {A} (l : list A) (x y : A) :
  <[length l := y]> (l ++ [x])%list = (l ++ [y])%list.
Proof.
  rewrite insert_app_r_alt by lia. by rewrite Nat.sub_diag.
Qed.

Lemma wrapper_entry_eq env tid name args kwargs w :
  wrapper_entry env tid name args kwargs w =
    (Returns (S (S (ticks w))), entered env tid name args kwargs w).
Proof.
  unfold wrapper_entry, get_git_sha.
  unfold bind at 1. unfold ret at 1.
  unfold bind at 1. rewrite RunRecorder_init_eq.
  unfold bind at 1. unfold setattr_recorder at 1. simpl.
  unfold bind at 1.
  erewrite RunRecorder_enter_ok; [|apply lookup_snoc_last|done|done].
  simpl. rewrite insert_snoc_last.
  unfold bind at 1. unfold trace_event, get_current_recorder, current_recorder.
  unfold bind at 1. simpl. rewrite lookup_insert_eq. simpl.
  unfold bind at 1. unfold lift at 1.
  erewrite log_step_ok; [|apply lookup_snoc_last|done|done|done].
  reflexivity.
Qed.

Lemma traced_split env tid name args kwargs func w :
  traced env tid name args kwargs func w =
    let '(o, w2) := func (entered env tid name args kwargs w) in
    wrapper_exit env tid (length (heap w)) (current_recorder tid w) (S (S (ticks w))) o w2.
Proof.
  unfold traced, get_git_sha.
  unfold bind at 1. unfold ret at 1.
  unfold bind at 1. rewrite RunRecorder_init_eq.
  unfold bind at 1. unfold get_current_recorder at 1.
  unfold bind at 1. unfold setattr_recorder at 1. simpl.
  unfold try_finally, with_.
  unfold bind at 1.
  erewrite RunRecorder_enter_ok; [|apply lookup_snoc_last|done|done].
  simpl. rewrite insert_snoc_last.
  unfold bind at 1. unfold trace_event at 1, get_current_recorder, current_recorder.
  unfold bind at 1. simpl. rewrite lookup_insert_eq. simpl.
  unfold bind at 1. unfold lift at 1.
  erewrite log_step_ok; [|apply lookup_snoc_last|done|done|done].
  simpl. unfold bind at 1. unfold time_time at 1. simpl.
  change (tick _) with (entered env tid name args kwargs w).
  unfold wrapper_exit, try_finally, setattr_recorder. unfold bind at 1.
  destruct (func (entered env tid name args kwargs w)) as [[v|e] w2]; reflexivity.
Qed.

Lemma trace_event_cases env tid ty data w :
  (exists o w', trace_event env tid ty data w = (o, w') /\ same_store w w') \/
  (exists self r rid d payload,
     current_recorder tid w = Some self /\ json_dumps data = Returns payload /\
     heap w !! self = Some r /\ conn_open r = true /\ run_id r = Some rid /\
     db w = Some d /\
     trace_event env tid ty data w =
       (Returns tt,
        mkWorld
          (Some (mkDatabase (runs d)
                   (steps d ++ [mkStep (seq_steps d + 1) rid
                                  (utcnow_isoformat env (ticks w)) ty payload None])
                   (seq_runs d) (seq_steps d + 1)))
          (heap w) (context w) (S (ticks w)))).
Proof.
  unfold trace_event, get_current_recorder. unfold bind at 1.
  destruct (current_recorder tid w) as [self|] eqn:Hc; [|left; eauto].
  unfold bind, lift. destruct (json_dumps data) as [payload|e] eqn:Hj; [|left; eauto].
  destruct (log_step_cases env self ty payload w)
    as [(e & w' & E & Hs)|(r & rid & d & Hr & Ho & Hid & Hd & E)]; rewrite E.
  - left. eauto.
  - right. exists self, r, rid, d, payload. repeat (split; [done|]).
    by rewrite ?Hc, ?Hj.
Qed.

(** ** User code leaves the recorders of its callers alone *)

Lemma frame_refl n w : frame n w w.
Proof. by split. Qed.

Lemma frame_trans n w1 w2 w3 : frame n w1 w2 -> frame n w2 w3 -> frame n w1 w3.
Proof.
  intros [L1 H1] [L2 H2]. split; [lia|]. intros i Hi. by rewrite H2, H1.
Qed.

Lemma frame_same n w w' : heap w' = heap w -> frame n w w'.
Proof. intros H. unfold frame. rewrite H. by split. Qed.

Section Frame.

Variable env : Env.

Lemma trace_event_heap tid ty data w :
  heap (snd (trace_event env tid ty data w)) = heap w.
Proof.
  destruct (trace_event_cases env tid ty data w)
    as [(o & w' & -> & Hs)|(self & r & rid & d & payload & _ & _ & _ & _ & _ & _ & ->)];
    [apply Hs|done].
Qed.

Lemma trace_event_context tid ty data w :
  context (snd (trace_event env tid ty data w)) = context w.
Proof.
  destruct (trace_event_cases env tid ty data w)
    as [(o & w' & -> & Hs)|(self & r & rid & d & payload & _ & _ & _ & _ & _ & _ & ->)];
    [apply Hs|done].
Qed.

Lemma exit_frame n self w :
  (n <= self)%nat -> frame n w (snd (RunRecorder_exit env self w)).
Proof.
  intros Hn.
  destruct (RunRecorder_exit_cases env self w)
    as [(e & w' & -> & Hs)|(r & d & Hr & Ho & Hd & ->)]; simpl.
  { apply frame_same, Hs. }
  split; simpl; [by rewrite length_insert|].
  intros i Hi. apply list_lookup_insert_ne. lia.
Qed.

Lemma wrapper_exit_frame n tid self old t0 o w :
  (n <= self)%nat -> frame n w (snd (wrapper_exit env tid self old t0 o w)).
Proof.
  intros Hn. unfold wrapper_exit, try_finally, setattr_recorder.
  match goal with |- context [let '(o', w1) := ?m w in _] =>
    assert (Hm : frame n w (snd (m w))); [|destruct (m w) as [o' w1]] end.
  { unfold bind, lift, time_time, ret. destruct o as [v|e]; [|apply frame_refl].
    pose proof (trace_event_heap tid "function_end"
      (PDict [("duration", PFloat (elapsed_repr env t0 (ticks w)));
              ("result_type", PStr (type_name v))]) (tick w)) as Hh.
    destruct (trace_event _ _ _ _ (tick w)) as [[[]|e] w1]; by apply frame_same. }
  simpl in Hm. pose proof (exit_frame n self w1 Hn) as Hx.
  destruct (RunRecorder_exit env self w1) as [[[]|e] w2]; simpl in *;
    eapply frame_trans; eauto using frame_trans, frame_same.
Qed.

Lemma entered_frame n tid name args kwargs w :
  (n <= length (heap w))%nat -> frame n w (entered env tid name args kwargs w).
Proof.
  intros Hn. split; simpl; [rewrite length_app; lia|].
  intros i Hi. apply lookup_app_l. lia.
Qed.

Lemma exec_frame tid p :
  forall n w, (n <= length (heap w))%nat -> frame n w (snd (exec env tid p w)).
Proof.
  induction p as [v|e|ty d k IH|nm a kw body IHb k IHk|body IHb handler IHh k IHk];
    intros n w Hn; simpl.
  - apply frame_refl.
  - apply frame_refl.
  - unfold bind. pose proof (trace_event_heap tid ty d w) as Hh.
    destruct (trace_event env tid ty d w) as [[[]|e] w1]; simpl in *;
      [|by apply frame_same].
    eapply frame_trans; [by apply frame_same|]. apply IH. by rewrite Hh.
  - unfold bind. rewrite traced_split.
    pose proof (entered_frame n tid nm a kw w Hn) as He.
    assert (Hn1 : (n <= length (heap (entered env tid nm a kw w)))%nat).
    { destruct He. lia. }
    pose proof (IHb n _ Hn1) as Hb.
    destruct (exec env tid body (entered env tid nm a kw w)) as [o w2]. simpl in Hb.
    assert (Hx : frame n w2
              (snd (wrapper_exit env tid (length (heap w)) (current_recorder tid w)
                      (S (S (ticks w))) o w2))) by by apply wrapper_exit_frame.
    assert (Hall : frame n w
              (snd (wrapper_exit env tid (length (heap w)) (current_recorder tid w)
                      (S (S (ticks w))) o w2))) by eauto using frame_trans.
    destruct (wrapper_exit _ _ _ _ _ o w2) as [[v|e] w3]; simpl in *; [|done].
    eapply frame_trans; [exact Hall|]. apply IHk. destruct Hall. lia.
  - pose proof (IHb n w Hn) as Hb.
    destruct (exec env tid body w) as [[v|e] w1]; simpl in *.
    + eapply frame_trans; [exact Hb|]. apply IHk. destruct Hb. lia.
    + unfold bind. assert (Hn1 : (n <= length (heap w1))%nat) by (destruct Hb; lia).
      pose proof (IHh e n w1 Hn1) as Hh.
      destruct (exec env tid (handler e) w1) as [[v|e'] w2]; simpl in *;
        [|eauto using frame_trans].
      eapply frame_trans; [exact Hb|]. eapply frame_trans; [exact Hh|].
      apply IHk. destruct Hh. lia.
Qed.

(** The wrapper ends by putting back what the slot of the thread held. *)
Lemma wrapper_exit_context tid self old t0 o w :
  current_recorder tid (snd (wrapper_exit env tid self old t0 o w)) = old.
Proof.
  unfold wrapper_exit, try_finally, setattr_recorder.
  match goal with |- context [let '(o', w1) := ?m w in _] =>
    destruct (m w) as [o' w1] end.
  destruct (RunRecorder_exit env self w1) as [[[]|e] w2]; simpl;
    unfold current_recorder; simpl; by rewrite lookup_insert_eq.
Qed.

Lemma exec_context tid p w :
  current_recorder tid (snd (exec env tid p w)) = current_recorder tid w.
Proof.
  revert w.
  induction p as [v|e|ty d k IH|nm a kw body IHb k IHk|body IHb handler IHh k IHk];
    intros w; simpl; try done.
  - unfold bind. pose proof (trace_event_context tid ty d w) as Hc.
    destruct (trace_event env tid ty d w) as [[[]|e] w1]; simpl in *.
    + rewrite IH. unfold current_recorder. by rewrite Hc.
    + unfold current_recorder. by rewrite Hc.
  - unfold bind. rewrite traced_split.
    destruct (exec env tid body (entered env tid nm a kw w)) as [o w2].
    pose proof (wrapper_exit_context tid (length (heap w)) (current_recorder tid w)
                  (S (S (ticks w))) o w2) as Hx.
    destruct (wrapper_exit _ _ _ _ _ o w2) as [[v|e] w3]; simpl in *; [|done].
    by rewrite IHk.
  - pose proof (IHb w) as Hb.
    destruct (exec env tid body w) as [[v|e] w1]; simpl in *.
    + by rewrite IHk.
    + unfold bind. pose proof (IHh e w1) as Hh.
      destruct (exec env tid (handler e) w1) as [[v|e'] w2]; simpl in *;
        [rewrite IHk|]; congruence.
Qed.

End Frame.

Section WrapperExit.

Variable env : Env.

Let clock := utcnow_isoformat env.

(** When the wrapped function raised: the run is ended, the connection
    closed, the slot put back, the exception passed on. *)
Lemma wrapper_exit_raises tid self old t0 E w r d :
  heap w !! self = Some r -> conn_open r = true -> db w = Some d ->
  wrapper_exit env tid self old t0 (Raises E) w =
    (Raises E,
     mkWorld
       (Some (mkDatabase (map (set_end_ts (clock (ticks w)) (run_id r)) (runs d))
                (steps d) (seq_runs d) (seq_steps d)))
       (<[self := mkRunRecorder (func_name r) (git_sha r) false (run_id r)]> (heap w))
       (<[tid := old]> (context w)) (S (ticks w))).
Proof.
  intros Hr Ho Hd. unfold wrapper_exit, try_finally, setattr_recorder, bind, lift.
  by rewrite (RunRecorder_exit_ok env self w r d).
Qed.

(** When it returned: the same, after the [function_end] step. *)
Lemma wrapper_exit_returns tid self old t0 v w r rid d :
  current_recorder tid w = Some self ->
  heap w !! self = Some r -> conn_open r = true -> run_id r = Some rid ->
  db w = Some d ->
  wrapper_exit env tid self old t0 (Returns v) w =
    (Returns v,
     mkWorld
       (Some (mkDatabase
                (map (set_end_ts (clock (S (S (ticks w)))) (Some rid)) (runs d))
                (steps d ++ [mkStep (seq_steps d + 1) rid (clock (S (ticks w)))
                               "function_end" (end_payload env t0 (ticks w) v) None])
                (seq_runs d) (seq_steps d + 1)))
       (<[self := mkRunRecorder (func_name r) (git_sha r) false (Some rid)]> (heap w))
       (<[tid := old]> (context w)) (S (S (S (ticks w))))).
Proof.
  intros Hc Hr Ho Hi Hd.
  unfold wrapper_exit, try_finally, setattr_recorder.
  unfold bind at 1. unfold lift at 1.
  unfold bind at 1. unfold time_time at 1.
  unfold bind at 1. unfold trace_event, get_current_recorder.
  unfold bind at 1. change (current_recorder tid (tick w)) with (current_recorder tid w).
  rewrite Hc. unfold bind at 1. unfold lift at 1. simpl json_dumps.
  cbv beta iota.
  erewrite (log_step_ok env self _ _ (tick w) r rid d); [|done..].
  unfold ret at 1.
  erewrite RunRecorder_exit_ok; [|exact Hr|done|done].
  simpl. by rewrite Hi.
Qed.

End WrapperExit.

(** * Properties of the package *)

(** ** C1: the wrapper passes a failure of the wrapped function on *)

(** C1. Whatever the wrapped function does and whichever exception [E] it
    raises, the call of the wrapper raises that same [E]; the run the
    wrapper opened has its end timestamp set, the connection of its
    recorder is closed, and the slot of the calling thread holds again what
    it held before the call. *)
Theorem traced_exception_transparent env tid name args kwargs (body : prog) w E w2 :
  exec env tid body (at_call env tid name args kwargs w) = (Raises E, w2) ->
  exists w' rid ts,
    traced env tid name args kwargs (exec env tid body) w = (Raises E, w')
    /\ recorder_run_id (length (heap w)) w' = Some rid
    /\ end_ts_of rid w' = Some (Some ts)
    /\ ~ recorder_open (length (heap w)) w'
    /\ current_recorder tid w' = current_recorder tid w.
Proof.
  unfold at_call. rewrite wrapper_entry_eq. simpl. intros Hbody.
  set (n := length (heap w)). set (w1 := entered env tid name args kwargs w) in *.
  set (rid := seq_runs (default empty_tables (db w)) + 1).
  (* the recorder of this call is untouched by the body *)
  assert (Hrec : heap w2 !! n =
                 Some (mkRunRecorder name (wrapper_sha env) true (Some rid))).
  { pose proof (exec_frame env tid body (S n) w1) as [_ Hf].
    { subst w1 n. simpl. rewrite length_app. simpl. lia. }
    rewrite Hbody in Hf. simpl in Hf. rewrite Hf by lia.
    subst w1 n. simpl. apply lookup_snoc_last. }
  (* its run is still in the file *)
  assert (Hrun : is_Some (end_ts_of rid w2)).
  { pose proof (stable_exec env persists (persists_api env) tid body w1 rid) as Hp.
    rewrite Hbody in Hp. apply Hp.
    subst w1 rid. unfold end_ts_of, find_run. simpl. rewrite find_app.
    destruct (List.find _ (runs (default empty_tables (db w)))); simpl; [eauto|].
    rewrite Z.eqb_refl. eauto. }
  destruct Hrun as [o Hrun].
  apply end_ts_of_Some in Hrun as (d2 & row & Hd2 & Hfind & _).
  rewrite traced_split. fold w1. rewrite Hbody.
  rewrite (wrapper_exit_raises env tid n _ _ E w2 _ d2 Hrec eq_refl Hd2). simpl.
  eexists _, rid, _. split; [reflexivity|].
  assert (Hn : (n < length (heap w2))%nat) by (by apply lookup_lt_Some in Hrec).
  repeat split.
  - unfold recorder_run_id. simpl. by rewrite list_lookup_insert_eq.
  - unfold end_ts_of, find_run in *. simpl. rewrite find_map_set_end_ts, Hfind. simpl.
    apply find_run_Some in Hfind as [_ Hid]. unfold find_run in *.
    unfold set_end_ts. by rewrite Hid, Z.eqb_refl.
  - intros (r & Hr & Ho). simpl in Hr. rewrite list_lookup_insert_eq in Hr by done.
    by simplify_eq.
  - unfold current_recorder. simpl. by rewrite lookup_insert_eq.
Qed.

Lemma traced_exception_transparent_witness :
  exists w' rid ts,
    traced sample_env 0 "failing_function" "()" "{}"
      (exec sample_env 0 failing_function) initial_world
      = (Raises (ValueError "Test error"), w')
    /\ recorder_run_id (length (heap initial_world)) w' = Some rid
    /\ end_ts_of rid w' = Some (Some ts)
    /\ ~ recorder_open (length (heap initial_world)) w'
    /\ current_recorder 0 w' = current_recorder 0 initial_world.
Proof.
  eapply (traced_exception_transparent sample_env 0%nat "failing_function" "()" "{}"
            failing_function initial_world).
  vm_compute. reflexivity.
Defined.

(** ** C6: no recorder, no trace *)

(** C6. When the slot of the calling thread holds no recorder,
    [trace_event] returns normally and leaves the whole world, the file
    included, as it was -- whatever the data, serialisable or not. *)
Theorem trace_event_without_recorder env tid event_type data w :
  current_recorder tid w = None ->
  trace_event env tid event_type data w = (Returns tt, w).
Proof.
  intros Hc. unfold trace_event, get_current_recorder, bind. by rewrite Hc.
Qed.

Lemma trace_event_without_recorder_witness :
  trace_event sample_env 0 "status" (PDict [("handle", PObject "socket")]) initial_world
  = (Returns tt, initial_world).
Proof.
  apply (trace_event_without_recorder sample_env 0%nat "status"
           (PDict [("handle", PObject "socket")]) initial_world).
  reflexivity.
Defined.

(** ** C3: a payload that cannot be serialised *)

(** Inside the call of a traced function, [trace_event("snapshot",
    {"seen": {1, 2}})] raises the [TypeError] of [json.dumps]; nothing is
    recorded in its place. *)
Lemma trace_event_set_payload_raises :
  let w := at_call sample_env 0 "observe" "()" "{}" initial_world in
  current_recorder 0 w = Some 0%nat
  /\ trace_event sample_env 0 "snapshot" (PDict [("seen", PObject "set")]) w
     = (Raises (TypeError "Object of type set is not JSON serializable"), w)
  /\ ~ records_placeholder sample_env 0 "snapshot" (PDict [("seen", PObject "set")]) w.
Proof.
  split; [by vm_compute|]. split; [by vm_compute|].
  intros (w' & H & _). vm_compute in H. discriminate.
Qed.

(** C3, as the code has it. Inside an active session, a [trace_event]
    whose data [json.dumps] rejects records nothing, neither the event nor
    a placeholder: the world is exactly as before, and the exception that
    [json.dumps] raised -- a [TypeError] for an object of a type it does not
    know, a [ValueError] for a circular reference or for an [int] of more
    than 4300 digits -- is raised to the caller as it is. *)
Theorem trace_event_unserialisable env tid event_type data w self e :
  current_recorder tid w = Some self ->
  json_dumps data = Raises e ->
  trace_event env tid event_type data w = (Raises e, w)
  /\ ~ records_placeholder env tid event_type data w.
Proof.
  intros Hc Hj.
  assert (H : trace_event env tid event_type data w = (Raises e, w)).
  { unfold trace_event, get_current_recorder, bind, lift. by rewrite Hc, Hj. }
  split; [done|]. intros (w' & H' & _). congruence.
Qed.

(** A dictionary that holds itself: the [ValueError] of [json.dumps]. *)
Lemma trace_event_unserialisable_witness :
  let w := at_call sample_env 0 "observe" "()" "{}" initial_world in
  trace_event sample_env 0 "snapshot" (PDict [("self", PCircular "dict")]) w
  = (Raises (ValueError "Circular reference detected"), w)
  /\ ~ records_placeholder sample_env 0 "snapshot" (PDict [("self", PCircular "dict")]) w.
Proof.
  apply (trace_event_unserialisable sample_env 0%nat "snapshot"
           (PDict [("self", PCircular "dict")])
           (at_call sample_env 0 "observe" "()" "{}" initial_world) 0%nat).
  - vm_compute. reflexivity.
  - reflexivity.
Defined.

(** ** C4: closing twice *)

(** The second [__exit__] is no silent no-op: it raises. *)
Lemma second_exit_is_an_error :
  end_ts_of 1 once_closed = Some (Some "2024-05-01T12:00:00.000120")
  /\ fst (RunRecorder_exit sample_env 0 once_closed) = Raises ProgrammingError
  /\ ~ exists w', RunRecorder_exit sample_env 0 once_closed = (Returns tt, w').
Proof.
  split; [by vm_compute|]. split; [by vm_compute|].
  intros (w' & H). vm_compute in H. discriminate.
Qed.

(** C4, as the code has it. After a first [__exit__], a second one raises
    [sqlite3.ProgrammingError] on the closed connection and changes
    neither the file nor any recorder nor the slots; in particular every
    end timestamp is the one seen after the first close. *)
Theorem second_exit_raises env self w w1 :
  RunRecorder_exit env self w = (Returns tt, w1) ->
  exists w2,
    RunRecorder_exit env self w1 = (Raises ProgrammingError, w2)
    /\ db w2 = db w1 /\ heap w2 = heap w1 /\ context w2 = context w1
    /\ forall rid, end_ts_of rid w2 = end_ts_of rid w1.
Proof.
  intros H1.
  destruct (RunRecorder_exit_cases env self w)
    as [(e & w' & E & _)|(r & d & Hr & Ho & Hd & E)]; rewrite E in H1; [done|].
  injection H1 as <-.
  eexists. split.
  - eapply RunRecorder_exit_closed;
      [simpl; apply list_lookup_insert_eq; by apply lookup_lt_Some in Hr|reflexivity].
  - by repeat split.
Qed.

Lemma second_exit_raises_witness :
  exists w2,
    RunRecorder_exit sample_env 0 once_closed = (Raises ProgrammingError, w2)
    /\ db w2 = db once_closed /\ heap w2 = heap once_closed
    /\ context w2 = context once_closed
    /\ forall rid, end_ts_of rid w2 = end_ts_of rid once_closed.
Proof.
  apply (second_exit_raises sample_env 0%nat
           (snd (RunRecorder_enter sample_env 0
                   (snd (RunRecorder_init "job" None initial_world))))).
  vm_compute. reflexivity.
Defined.

(** ** C10: nothing is logged through a closed recorder *)

(** C10. Once [__exit__] has run on the recorder of a session, then after
    any further calls whatsoever [log_step] on that recorder raises
    [sqlite3.ProgrammingError] and the tables are as they were: no step is
    added to the session. *)
Theorem log_step_after_exit env self rid w0 w1 calls kind payload :
  recorder_run_id self w0 = Some rid ->
  RunRecorder_exit env self w0 = (Returns tt, w1) ->
  exists w',
    log_step env self kind payload (after env calls w1) = (Raises ProgrammingError, w')
    /\ db w' = db (after env calls w1)
    /\ steps_of w' = steps_of (after env calls w1).
Proof.
  intros Hid H1.
  destruct (RunRecorder_exit_cases env self w0)
    as [(e & w' & E & _)|(r & d & Hr & Ho & Hd & E)]; rewrite E in H1; [done|].
  injection H1 as <-.
  unfold recorder_run_id in Hid. rewrite Hr in Hid. simpl in Hid.
  match goal with |- context [after env calls ?w] => set (w1 := w) end.
  assert (Hc : closed_with self rid w1).
  { exists (mkRunRecorder (func_name r) (git_sha r) false (run_id r)).
    split; [|by split]. subst w1. simpl.
    apply list_lookup_insert_eq. by apply lookup_lt_Some in Hr. }
  apply (stable_after env _ (stays_closed_api env self rid) calls) in Hc.
  destruct Hc as (r' & Hr' & Ho' & Hid').
  eexists. split; [by eapply log_step_closed|]. by split.
Qed.

Lemma log_step_after_exit_witness :
  exists w',
    log_step sample_env 0 "late" "{}"
      (after sample_env [Call_RunRecorder "other" None; Call_enter 1] once_closed)
    = (Raises ProgrammingError, w')
    /\ db w' = db (after sample_env [Call_RunRecorder "other" None; Call_enter 1] once_closed)
    /\ steps_of w'
       = steps_of (after sample_env [Call_RunRecorder "other" None; Call_enter 1] once_closed).
Proof.
  apply (log_step_after_exit sample_env 0%nat 1
           (snd (RunRecorder_enter sample_env 0
                   (snd (RunRecorder_init "job" None initial_world))))).
  - reflexivity.
  - vm_compute. reflexivity.
Defined.

(** ** ORDER BY ts *)

Lemma ts_le_total a b : ts_le a b \/ ts_le b a.
Proof. apply String.leb_total. Qed.

Lemma ts_le_trans a b c : ts_le a b -> ts_le b c -> ts_le a c.
Proof.
  unfold ts_le. intros H1 H2. apply Is_true_true.
  apply Is_true_true in H1, H2.
  exact (transitivity (R := String.le) H1 H2).
Qed.

Lemma elem_of_insert_by_ts x s l : x ∈ insert_by_ts s l <-> x = s \/ x ∈ l.
Proof.
  induction l as [|y l IH]; simpl.
  - rewrite list_elem_of_singleton, elem_of_nil. tauto.
  - destruct (String.leb (steps_ts s) (steps_ts y)).
    + by rewrite elem_of_cons.
    + rewrite !elem_of_cons, IH. tauto.
Qed.

Lemma elem_of_order_by_ts x l : x ∈ order_by_ts l <-> x ∈ l.
Proof.
  induction l as [|y l IH]; simpl; [done|].
  rewrite elem_of_insert_by_ts, elem_of_cons, IH. tauto.
Qed.

Lemma insert_by_ts_sorted s l :
  StronglySorted ts_le l -> StronglySorted ts_le (insert_by_ts s l).
Proof.
  induction l as [|y l IH]; intros Hs; simpl.
  - repeat constructor.
  - apply StronglySorted_cons in Hs as [Hall Hs].
    destruct (String.leb (steps_ts s) (steps_ts y)) eqn:E.
    + apply StronglySorted_cons. split; [|by apply StronglySorted_cons].
      constructor; [done|]. eapply Forall_impl; [exact Hall|].
      intros z Hz. by apply ts_le_trans with y.
    + apply StronglySorted_cons. split; [|by apply IH].
      apply Forall_forall. intros z [->|Hz]%elem_of_insert_by_ts.
      * destruct (ts_le_total s y) as [H|H]; [|done]. unfold ts_le in H. congruence.
      * by eapply Forall_forall in Hall.
Qed.

Lemma order_by_ts_sorted l : StronglySorted ts_le (order_by_ts l).
Proof.
  induction l as [|y l IH]; simpl; [constructor|]. by apply insert_by_ts_sorted.
Qed.

(** Rows that are in order already come back as they are. *)
Lemma order_by_ts_id l : StronglySorted ts_le l -> order_by_ts l = l.
Proof.
  induction l as [|y l IH]; intros Hs; simpl; [done|].
  apply StronglySorted_cons in Hs as [Hall Hs]. rewrite (IH Hs).
  destruct l as [|z l]; simpl; [done|].
  apply Forall_cons in Hall as [Hyz _]. unfold ts_le in Hyz. by rewrite Hyz.
Qed.

Lemma insert_by_ts_perm s l : insert_by_ts s l ≡ₚ s :: l.
Proof.
  induction l as [|x l IH]; simpl; [done|].
  destruct (String.leb (steps_ts s) (steps_ts x)); [done|].
  rewrite IH. apply Permutation_swap.
Qed.

Lemma order_by_ts_perm l : order_by_ts l ≡ₚ l.
Proof.
  induction l as [|x l IH]; simpl; [done|]. by rewrite insert_by_ts_perm, IH.
Qed.

(** ** C9: a payload that does not decode *)

Lemma fetch_steps_texts env rows :
  Forall (fun s => steps_undecodable s = None) rows ->
  fetch_steps env rows = Returns (map (step_to_dict env) rows).
Proof.
  induction 1 as [|row rows Hrow _ IH]; simpl; [done|]. by rewrite Hrow, IH.
Qed.






(** ** C5: steps and the runs they name *)

Lemma consistent_initial : consistent initial_world.
Proof.
  split; unfold steps_of, runs_of; simpl; try done.
  - by intros s ?%elem_of_nil.
Qed.

Lemma consistent_after env calls : consistent (after env calls initial_world).
Proof.
  apply (stable_after env keeps (keeps_api env) calls initial_world), consistent_initial.
Qed.

(** [log_step] does not look the id up: with the recorder holding 999 and
    no such run in the file, it returns normally and the step is stored. *)
Lemma log_step_unknown_run_is_inserted :
  find_run 999 empty_tables = None
  /\ (~ exists e w', log_step sample_env 0 "note" "{}" orphan_recorder = (Raises e, w'))
  /\ steps_of (snd (log_step sample_env 0 "note" "{}" orphan_recorder))
     = [mkStep 1 999 "2024-05-01T12:00:00" "note" "{}" None]
  /\ runs_of (snd (log_step sample_env 0 "note" "{}" orphan_recorder)) = [].
Proof.
  split; [reflexivity|]. split; [|split; by vm_compute].
  intros (e & w' & H). vm_compute in H. discriminate.
Qed.

(** C5, as the code has it. [log_step] refuses a recorder that holds no
    run id (the assertion fails and nothing is written), and that is its
    only check. The ids recorders hold come from their own [__enter__], so
    in every world the calls can reach from an empty file each stored step
    names a run that is in the file. *)
Theorem steps_name_stored_runs env calls self r kind payload :
  heap (after env calls initial_world) !! self = Some r ->
  run_id r = None ->
  log_step env self kind payload (after env calls initial_world)
  = (Raises AssertionError, after env calls initial_world)
  /\ forall calls' s, s ∈ steps_of (after env calls' initial_world) ->
       exists run, run ∈ runs_of (after env calls' initial_world)
                   /\ runs_id run = steps_run_id s.
Proof.
  intros Hr Hid. split; [by eapply log_step_unset|].
  intros calls' s Hs. by apply (steps_reference_runs _ (consistent_after env calls')).
Qed.

Lemma steps_name_stored_runs_witness :
  log_step sample_env 0 "early" "{}"
    (after sample_env [Call_RunRecorder "job" None] initial_world)
  = (Raises AssertionError, after sample_env [Call_RunRecorder "job" None] initial_world)
  /\ forall calls' s, s ∈ steps_of (after sample_env calls' initial_world) ->
       exists run, run ∈ runs_of (after sample_env calls' initial_world)
                   /\ runs_id run = steps_run_id s.
Proof.
  apply (steps_name_stored_runs sample_env [Call_RunRecorder "job" None] 0%nat
           (mkRunRecorder "job" "unknown" true None)).
  - reflexivity.
  - reflexivity.
Defined.

(** ** The sample clock never goes back *)

Lemma string_leb_refl s : String.leb s s = true.
Proof. apply Is_true_true. exact (reflexivity (R := String.le) s). Qed.

Lemma string_leb_trans a b c :
  String.leb a b = true -> String.leb b c = true -> String.leb a c = true.
Proof.
  intros H1 H2. apply Is_true_true. apply Is_true_true in H1, H2.
  exact (transitivity (R := String.le) H1 H2).
Qed.

Lemma sample_clock_step n : String.leb (sample_clock n) (sample_clock (S n)) = true.
Proof. do 10 (destruct n as [|n]; [reflexivity|]). reflexivity. Qed.

Lemma sample_clock_monotone : clock_monotone sample_env.
Proof.
  intros i j Hij. simpl. induction Hij as [|j Hij IH]; [apply string_leb_refl|].
  eapply string_leb_trans; [exact IH|apply sample_clock_step].
Qed.

(** ** C7: the end timestamp of a run *)

Lemma timely_initial env : timely env initial_world.
Proof.
  split; unfold steps_of, runs_of; simpl; try constructor.
  - by intros r t ?%elem_of_nil.
  - by intros s t ?%elem_of_nil.
Qed.

Lemma timely_after env calls w :
  clock_monotone env -> timely env w -> timely env (after env calls w).
Proof.
  intros Hclock. apply (stable_after env _ (on_time_api env Hclock) calls w).
Qed.

Lemma consistent_after_from env calls w : consistent w -> consistent (after env calls w).
Proof. intros Hc. by apply (stable_after env keeps (keeps_api env) calls w). Qed.

Lemma after_app env calls calls' w :
  after env (calls ++ calls') w = after env calls' (after env calls w).
Proof. unfold after. by rewrite fold_left_app. Qed.

(** With a clock that was set back between [__enter__] and [__exit__],
    the end timestamp of the run lies before its start timestamp. *)
Lemma end_ts_before_start_ts :
  let w := after backward_env [Call_RunRecorder "job" None; Call_enter 0; Call_exit 0]
             initial_world in
  start_ts_of 1 w = Some "2024-05-01T12:00:06"
  /\ end_ts_of 1 w = Some (Some "2024-05-01T12:00:05")
  /\ String.leb "2024-05-01T12:00:06" "2024-05-01T12:00:05" = false.
Proof. by vm_compute. Qed.

(** C7, as the code has it. Right after a recorder opens a run, the end
    timestamp of the run is absent; it stays absent for as long as the
    recorder is open on that run; the [__exit__] of the recorder sets it;
    and no sequence of later calls changes it again. The value is the
    reading of the clock at [__exit__]: it is not below the start timestamp
    if the clock never goes back, and only then. *)
Theorem end_ts_set_once env calls self w1 :
  RunRecorder_enter env self (after env calls initial_world) = (Returns self, w1) ->
  exists rid,
    recorder_run_id self w1 = Some rid
    /\ end_ts_of rid w1 = Some None
    /\ forall between,
         recorder_open self (after env between w1) ->
         recorder_run_id self (after env between w1) = Some rid ->
         end_ts_of rid (after env between w1) = Some None
         /\ exists w3 start stop,
              RunRecorder_exit env self (after env between w1) = (Returns tt, w3)
              /\ start_ts_of rid w3 = Some start
              /\ end_ts_of rid w3 = Some (Some stop)
              /\ stop = utcnow_isoformat env (ticks (after env between w1))
              /\ (clock_monotone env -> String.leb start stop = true)
              /\ forall later, end_ts_of rid (after env later w3) = Some (Some stop).
Proof.
  intros Henter.
  pose proof (consistent_after env calls) as Hc.
  assert (Hw1 : w1 = after env (calls ++ [Call_enter self]) initial_world).
  { rewrite after_app. simpl. by rewrite Henter. }
  set (w := after env calls initial_world) in *.
  pose proof (keeps_enter env self w Hc) as [Hc1 _].
  destruct (RunRecorder_enter_cases env self w)
    as [(e & w' & E & _)|(r & d & Hr & Ho & Hd & E)]; rewrite E in *; [done|].
  injection Henter as Hw1'. rewrite Hw1' in Hc1. simpl in Hc1.
  set (rid := seq_runs d + 1) in *.
  assert (Hself : heap w1 !! self = Some (mkRunRecorder (func_name r) (git_sha r) true (Some rid))).
  { rewrite <- Hw1'. simpl. apply list_lookup_insert_eq. by apply lookup_lt_Some in Hr. }
  exists rid. split; [|split].
  - unfold recorder_run_id. by rewrite Hself.
  - by apply (open_in_progress _ Hc1 self _ rid Hself).
  - intros between (r2 & Hr2 & Ho2) Hid2.
    pose proof (consistent_after_from env between w1 Hc1) as Hc2.
    assert (Hw2 : after env between w1
                  = after env ((calls ++ [Call_enter self]) ++ between) initial_world).
    { by rewrite (after_app env (calls ++ [Call_enter self])), <- Hw1. }
    set (w2 := after env between w1) in *.
    unfold recorder_run_id in Hid2. rewrite Hr2 in Hid2. simpl in Hid2.
    pose proof (open_in_progress _ Hc2 self r2 rid Hr2 Ho2 Hid2) as Hend.
    split; [done|].
    apply end_ts_of_Some in Hend as (d2 & row & Hd2 & Hfind & Hnone).
    pose proof (keeps_exit env self w2 Hc2) as [Hc3 _].
    rewrite (RunRecorder_exit_ok env self w2 r2 d2 Hr2 Ho2 Hd2) in *. simpl in Hc3.
    eexists _, (runs_start_ts row), (utcnow_isoformat env (ticks w2)).
    split; [reflexivity|].
    assert (Hend3 : forall w3, db w3 = Some (mkDatabase
                       (map (set_end_ts (utcnow_isoformat env (ticks w2)) (run_id r2)) (runs d2))
                       (steps d2) (seq_runs d2) (seq_steps d2)) ->
                     end_ts_of rid w3 = Some (Some (utcnow_isoformat env (ticks w2)))).
    { intros w3 Hd3. unfold end_ts_of, find_run in *. rewrite Hd3. simpl.
      rewrite find_map_set_end_ts, Hfind. simpl.
      apply find_run_Some in Hfind as [_ Hrow]. rewrite Hid2. unfold set_end_ts.
      by rewrite Hrow, Z.eqb_refl. }
    split; [|split; [by apply Hend3|split; [done|split]]].
    + unfold start_ts_of, find_run in *. simpl. rewrite find_map_set_end_ts, Hfind.
      simpl. by rewrite set_end_ts_start.
    + intros Hclock.
      pose proof (timely_after env ((calls ++ [Call_enter self]) ++ between) _ Hclock
                    (timely_initial env)) as Ht2.
      rewrite <- Hw2 in Ht2.
      apply find_run_Some in Hfind as [Hin _].
      apply (runs_timely _ _ Ht2 row (ticks w2)); [|done].
      unfold runs_of. by rewrite Hd2.
    + intros later.
      match type of Hc3 with consistent ?x => set (w3 := x) in * end.
      destruct (stable_after env keeps (keeps_api env) later w3 Hc3) as [_ Hstable].
      apply Hstable. by apply Hend3.
Qed.

Lemma end_ts_set_once_witness :
  let w1 := snd (RunRecorder_enter sample_env 0
                   (after sample_env [Call_RunRecorder "job" None] initial_world)) in
  exists rid,
    recorder_run_id 0 w1 = Some rid
    /\ end_ts_of rid w1 = Some None
    /\ forall between,
         recorder_open 0 (after sample_env between w1) ->
         recorder_run_id 0 (after sample_env between w1) = Some rid ->
         end_ts_of rid (after sample_env between w1) = Some None
         /\ exists w3 start stop,
              RunRecorder_exit sample_env 0 (after sample_env between w1) = (Returns tt, w3)
              /\ start_ts_of rid w3 = Some start
              /\ end_ts_of rid w3 = Some (Some stop)
              /\ stop = utcnow_isoformat sample_env (ticks (after sample_env between w1))
              /\ String.leb start stop = true
              /\ forall later, end_ts_of rid (after sample_env later w3) = Some (Some stop).
Proof.
  intros w1.
  destruct (end_ts_set_once sample_env [Call_RunRecorder "job" None] 0%nat w1)
    as (rid & Hrid & Hnone & Hrest); [vm_compute; reflexivity|].
  exists rid. split; [done|]. split; [done|]. intros between Hopen Hsame.
  destruct (Hrest between Hopen Hsame)
    as (Hnull & w3 & start & stop & Hexit & Hstart & Hend & Hstop & Hle & Hlater).
  split; [done|]. exists w3, start, stop.
  split; [done|]. split; [done|]. split; [done|]. split; [done|].
  split; [apply Hle, sample_clock_monotone|done].
Defined.

(** ** C8: the listing of a run *)

Lemma sorted_ts_map (l : list Step) :
  StronglySorted ts_le l ->
  StronglySorted (fun a b => String.leb a b = true) (map steps_ts l).
Proof.
  induction 1 as [|x l Hs IH Hall]; simpl; constructor; [done|].
  apply Forall_forall. intros t Ht. apply list_elem_of_fmap in Ht as (y & -> & Hy).
  by eapply Forall_forall in Hall.
Qed.

Lemma log_steps_appends env events :
  forall self w r rid d,
    heap w !! self = Some r -> conn_open r = true ->
    run_id r = Some rid -> db w = Some d ->
    exists w' d',
      log_steps env self events w = (Returns tt, w')
      /\ db w' = Some d'
      /\ steps d' = (steps d ++ logged_rows env rid (seq_steps d) (ticks w) events)%list.
Proof.
  induction events as [|[kind payload] events IH];
    intros self w r rid d Hr Ho Hid Hd; simpl.
  - exists w, d. unfold ret. by rewrite app_nil_r.
  - unfold bind.
    rewrite (log_step_ok env self kind payload w r rid d Hr Ho Hid Hd).
    match goal with |- context [log_steps _ _ _ ?x] => set (w1 := x) end.
    destruct (IH self w1 r rid _ Hr Ho Hid eq_refl) as (w' & d' & E & Hd' & Hsteps).
    exists w', d'. split; [done|]. split; [done|].
    rewrite Hsteps. simpl. by rewrite <- app_assoc.
Qed.

Lemma logged_rows_events env rid sid t events :
  map (fun s => (steps_kind s, steps_payload s)) (logged_rows env rid sid t events)
  = events.
Proof.
  revert sid t. induction events as [|[kind payload] events IH]; intros sid t; simpl;
    [done|]. by rewrite IH.
Qed.

Lemma logged_rows_ts env rid sid t events :
  map steps_ts (logged_rows env rid sid t events)
  = map (utcnow_isoformat env) (seq t (length events)).
Proof.
  revert sid t. induction events as [|[kind payload] events IH]; intros sid t; simpl;
    [done|]. by rewrite IH.
Qed.

Lemma logged_rows_run env rid sid t events :
  Forall (fun s => steps_run_id s = rid /\ steps_undecodable s = None)
    (logged_rows env rid sid t events).
Proof.
  revert sid t. induction events as [|[kind payload] events IH]; intros sid t; simpl;
    constructor; [done|apply IH].
Qed.

Lemma logged_rows_later env rid sid t events s :
  s ∈ logged_rows env rid sid t events ->
  exists i, (t <= i < t + length events)%nat /\ steps_ts s = utcnow_isoformat env i.
Proof.
  revert sid t. induction events as [|[kind payload] events IH]; intros sid t; simpl.
  - by intros ?%elem_of_nil.
  - intros [->|Hs]%elem_of_cons; [exists t; split; [lia|done]|].
    destruct (IH _ _ Hs) as (i & Hi & E). exists i. split; [lia|done].
Qed.

Lemma logged_rows_sorted env rid sid t events :
  clock_monotone env -> StronglySorted ts_le (logged_rows env rid sid t events).
Proof.
  intros Hclock. revert sid t.
  induction events as [|[kind payload] events IH]; intros sid t; simpl; constructor;
    [apply IH|].
  apply Forall_forall. intros s Hs.
  destruct (logged_rows_later _ _ _ _ _ _ Hs) as (i & Hi & E).
  unfold ts_le. simpl. rewrite E. apply Hclock. lia.
Qed.

Lemma logged_rows_increasing env rid sid t events :
  clock_increasing env t (length events) ->
  StronglySorted (fun a b => String.ltb (steps_ts a) (steps_ts b) = true)
    (logged_rows env rid sid t events).
Proof.
  revert sid t.
  induction events as [|[kind payload] events IH]; intros sid t Hclock; simpl; constructor.
  - apply IH. intros i j Hi Hij Hj. apply Hclock; simpl; lia.
  - apply Forall_forall. intros s Hs.
    destruct (logged_rows_later _ _ _ _ _ _ Hs) as (i & Hi & E).
    simpl. rewrite E. apply Hclock; simpl; lia.
Qed.

Lemma string_ltb_not_leb a b : String.ltb a b = true -> String.leb b a = true -> False.
Proof.
  unfold String.ltb, String.leb. rewrite (String.compare_antisym a b).
  destruct (String.compare b a); simpl; congruence.
Qed.

(** Rows whose timestamps all differ have one order by timestamp only. *)
Lemma sorted_by_ts_unique (rows : list Step) :
  StronglySorted (fun a b => String.ltb (steps_ts a) (steps_ts b) = true) rows ->
  forall other, other ≡ₚ rows -> StronglySorted ts_le other -> other = rows.
Proof.
  induction 1 as [|x l Hl IH Hx]; intros other Hp Hs.
  - by apply Permutation_nil_r in Hp.
  - destruct other as [|y other]; [by apply Permutation_nil_cons in Hp|].
    apply StronglySorted_cons in Hs as [Hy Hs].
    assert (Hyx : y = x).
    { assert (Hin : y ∈ x :: l) by (rewrite <- Hp; left).
      apply elem_of_cons in Hin as [->|Hin]; [done|].
      assert (Hin' : x ∈ y :: other) by (rewrite Hp; left).
      apply elem_of_cons in Hin' as [->|Hin']; [done|].
      exfalso. eapply Forall_forall in Hx; [|exact Hin].
      eapply Forall_forall in Hy; [|exact Hin'].
      exact (string_ltb_not_leb _ _ Hx Hy). }
    subst y. f_equal. apply IH; [|done]. by apply Permutation_cons_inv in Hp.
Qed.

(** With the clock set back while the run is recorded, the listing has
    the three events of the run, by timestamp -- which is not the order in
    which they were logged. *)
Lemma get_steps_not_in_emission_order :
  let w := after backward_env
             [Call_RunRecorder "job" None; Call_enter 0;
              Call_log_step 0 "first" "null"; Call_log_step 0 "second" "null";
              Call_log_step 0 "third" "null"]
             initial_world in
  map steps_kind (steps_of w) = ["first"; "second"; "third"]
  /\ exists listing,
       get_steps backward_env 1 w = (Returns listing, w)
       /\ map sd_kind listing = ["second"; "third"; "first"].
Proof. split; [by vm_compute|]. eexists. split; by vm_compute. Qed.

(** C8, as the code has it. Open a run on a recorder and log any
    sequence of events through it: the run then has exactly those events as
    its rows, stamped with the successive readings of the clock, and its
    listing holds exactly those rows, by timestamp. With a clock that never
    goes back the listing is in the order in which the events were logged,
    rows with equal timestamps staying in the order of their insertion;
    when each reading taken for these events is later than the one before,
    every order of the rows by timestamp is that order, whatever is done
    about equal timestamps. The run id is one that fits an INTEGER of the
    file. *)
Theorem get_steps_in_emission_order env calls self w1 events :
  RunRecorder_enter env self (after env calls initial_world) = (Returns self, w1) ->
  exists rid w2 rows,
    recorder_run_id self w1 = Some rid
    /\ log_steps env self events w1 = (Returns tt, w2)
    /\ filter (fun s => steps_run_id s = rid) (steps_of w2) = rows
    /\ map (fun s => (steps_kind s, steps_payload s)) rows = events
    /\ map steps_ts rows = map (utcnow_isoformat env) (seq (ticks w1) (length events))
    /\ (in_int64 rid = true ->
        exists listing,
          get_steps env rid w2 = (Returns listing, w2)
          /\ listing ≡ₚ map (step_to_dict env) rows
          /\ StronglySorted (fun a b => String.leb a b = true) (map sd_ts listing)
          /\ (clock_monotone env -> listing = map (step_to_dict env) rows))
    /\ (clock_increasing env (ticks w1) (length events) ->
        forall other, other ≡ₚ rows -> StronglySorted ts_le other -> other = rows).
Proof.
  intros Henter.
  pose proof (consistent_after env calls) as Hc.
  set (w := after env calls initial_world) in *.
  destruct (RunRecorder_enter_cases env self w)
    as [(e & w' & E & _)|(r & d & Hr & Ho & Hd & E)]; rewrite E in *; [done|].
  injection Henter as <-.
  match goal with |- context [log_steps _ _ _ ?x] => set (w1 := x) end.
  set (rid := seq_runs d + 1) in *.
  assert (Hself : heap w1 !! self
                  = Some (mkRunRecorder (func_name r) (git_sha r) true (Some rid))).
  { subst w1. simpl. apply list_lookup_insert_eq. by apply lookup_lt_Some in Hr. }
  (* the new run has no step yet *)
  assert (Hfresh : filter (fun s => steps_run_id s = rid) (steps d) = []).
  { apply elem_of_nil_inv. intros s [Hid Hs]%list_elem_of_filter.
    destruct (steps_reference_runs _ Hc s) as (run & Hin & Hrun).
    { unfold steps_of. by rewrite Hd. }
    unfold runs_of in Hin. rewrite Hd in Hin.
    pose proof (runs_below_seq _ Hc d run Hd Hin). subst rid. lia. }
  destruct (log_steps_appends env events self w1 _ rid _ Hself eq_refl eq_refl eq_refl)
    as (w2 & d2 & Elog & Hd2 & Hsteps).
  simpl in Hsteps.
  set (rows := logged_rows env rid (seq_steps d) (S (ticks w)) events) in *.
  pose proof (logged_rows_run env rid (seq_steps d) (S (ticks w)) events) as Hall.
  fold rows in Hall.
  assert (Hrows : filter (fun s => steps_run_id s = rid) (steps d2) = rows).
  { rewrite Hsteps, filter_app, Hfresh. simpl.
    clear -Hall. induction Hall as [|s l [Hs _] Hl IH]; [done|].
    rewrite filter_cons_True by done. by rewrite IH. }
  exists rid, w2, rows.
  split; [unfold recorder_run_id; by rewrite Hself|].
  split; [done|].
  split; [unfold steps_of; by rewrite Hd2|].
  split; [apply logged_rows_events|].
  split; [apply logged_rows_ts|].
  split.
  - intros Hrange. rewrite get_steps_eq, Hd2, Hrange. unfold select_steps. rewrite Hrows.
    assert (Hdec : Forall (fun s => steps_undecodable s = None) (order_by_ts rows)).
    { apply Forall_forall. intros s Hs. apply (proj1 (elem_of_order_by_ts _ _)) in Hs.
      eapply Forall_forall in Hall; [|exact Hs]. tauto. }
    rewrite (fetch_steps_texts env _ Hdec).
    exists (map (step_to_dict env) (order_by_ts rows)).
    split; [done|]. split; [by rewrite order_by_ts_perm|]. split.
    + rewrite map_map. simpl. apply (sorted_ts_map (order_by_ts rows)), order_by_ts_sorted.
    + intros Hclock. f_equal. apply order_by_ts_id.
      by apply logged_rows_sorted.
  - intros Hclock. apply sorted_by_ts_unique. by apply logged_rows_increasing.
Qed.

Lemma get_steps_in_emission_order_witness :
  let w1 := snd (RunRecorder_enter sample_env 0
                   (after sample_env [Call_RunRecorder "job" None] initial_world)) in
  let events := [("plan", "true"); ("act", "{oops"); ("observe", "null")] in
  exists rid w2 rows,
    recorder_run_id 0 w1 = Some rid
    /\ log_steps sample_env 0 events w1 = (Returns tt, w2)
    /\ filter (fun s => steps_run_id s = rid) (steps_of w2) = rows
    /\ map (fun s => (steps_kind s, steps_payload s)) rows = events
    /\ map steps_ts rows
       = ["2024-05-01T12:00:00.000120"; "2024-05-01T12:00:00.000480";
          "2024-05-01T12:00:00.001000"]
    /\ (exists listing,
          get_steps sample_env rid w2 = (Returns listing, w2)
          /\ listing ≡ₚ map (step_to_dict sample_env) rows
          /\ StronglySorted (fun a b => String.leb a b = true) (map sd_ts listing)
          /\ listing = map (step_to_dict sample_env) rows)
    /\ (forall other, other ≡ₚ rows -> StronglySorted ts_le other -> other = rows).
Proof.
  intros w1 events.
  destruct (get_steps_in_emission_order sample_env [Call_RunRecorder "job" None] 0%nat
              w1 events)
    as (rid & w2 & rows & Hrid & Hlog & Hrows & Hevents & Hts & Hlist & Huniq);
    [vm_compute; reflexivity|].
  assert (Hone : rid = 1) by (vm_compute in Hrid; congruence).
  exists rid, w2, rows.
  split; [done|]. split; [done|]. split; [done|]. split; [done|]. split; [done|]. split.
  - destruct Hlist as (listing & Hget & Hperm & Hsorted & Horder); [by rewrite Hone|].
    exists listing. split; [done|]. split; [done|]. split; [done|].
    apply Horder, sample_clock_monotone.
  - apply Huniq. intros i j Hi Hij Hj.
    change (ticks w1) with 1%nat in Hi, Hj. simpl in Hj.
    assert (Hcases : (i = 1 /\ j = 2 \/ i = 1 /\ j = 3 \/ i = 2 /\ j = 3)%nat) by lia.
    destruct Hcases as [[-> ->]|[[-> ->]|[-> ->]]]; reflexivity.
Defined.

(** ** Code that calls no traced function *)

Lemma quiet_refl tid w : quiet tid w w.
Proof.
  split; [done|]. split; [done|]. intros d Hd. exists d, [].
  rewrite app_nil_r. by repeat split.
Qed.

Lemma quiet_same tid w w' : same_store w w' -> quiet tid w w'.
Proof.
  intros (Hd & Hh & Hc & _). split; [done|]. split; [done|]. intros d Hd'.
  exists d, []. rewrite app_nil_r, Hd. by repeat split.
Qed.

Lemma active_run_same tid w w' :
  heap w' = heap w -> context w' = context w -> active_run tid w' = active_run tid w.
Proof.
  intros Hh Hc. unfold active_run, current_recorder, recorder_run_id. by rewrite Hh, Hc.
Qed.

Lemma quiet_trans tid w1 w2 w3 : quiet tid w1 w2 -> quiet tid w2 w3 -> quiet tid w1 w3.
Proof.
  intros (Hh1 & Hc1 & H1) (Hh2 & Hc2 & H2).
  split; [congruence|]. split; [congruence|]. intros d Hd.
  destruct (H1 d Hd) as (d2 & new1 & Hd2 & Hr1 & Hq1 & Hs1 & Hall1).
  destruct (H2 d2 Hd2) as (d3 & new2 & Hd3 & Hr2 & Hq2 & Hs2 & Hall2).
  exists d3, (new1 ++ new2)%list.
  split; [done|]. split; [congruence|]. split; [congruence|].
  split; [by rewrite Hs2, Hs1, app_assoc|].
  apply Forall_app. split; [done|].
  by rewrite (active_run_same tid w1 w2 Hh1 Hc1) in Hall2.
Qed.

Section Quiet.

Variable env : Env.

Lemma trace_event_quiet tid ty data w :
  quiet tid w (snd (trace_event env tid ty data w)).
Proof.
  destruct (trace_event_cases env tid ty data w)
    as [(o & w' & -> & Hs)
       |(self & r & rid & d & payload & Hc & _ & Hr & _ & Hid & Hd & ->)]; simpl.
  { by apply quiet_same. }
  split; [done|]. split; [done|]. intros d' Hd'. assert (d' = d) as -> by congruence.
  eexists _, [_]. simpl. repeat split. constructor; [|done]. simpl.
  unfold active_run, recorder_run_id. rewrite Hc. simpl. by rewrite Hr.
Qed.

Lemma exec_no_calls_quiet tid p :
  no_calls p -> forall w, quiet tid w (snd (exec env tid p w)).
Proof.
  induction p as [v|e|ty d k IH|nm a kw body IHb k IHk|body IHb handler IHh k IHk];
    intros Hp w; simpl in *; try done.
  - apply quiet_refl.
  - apply quiet_refl.
  - unfold bind. pose proof (trace_event_quiet tid ty d w) as Hq.
    destruct (trace_event env tid ty d w) as [[[]|e] w1]; simpl in *; [|done].
    eapply quiet_trans; [exact Hq|by apply IH].
  - destruct Hp as (Hb & Hh & Hk). pose proof (IHb Hb w) as Hq.
    destruct (exec env tid body w) as [[v|e] w1]; simpl in *.
    + eapply quiet_trans; [exact Hq|by apply IHk].
    + unfold bind. pose proof (IHh e (Hh e) w1) as Hq1.
      destruct (exec env tid (handler e) w1) as [[v|e'] w2]; simpl in *;
        [|by eapply quiet_trans].
      eapply quiet_trans; [exact Hq|]. eapply quiet_trans; [exact Hq1|by apply IHk].
Qed.

(** Serialisable events in an open session all get through. *)
Lemma exec_seq_events tid events k :
  Forall (fun e => serialisable (snd e)) events ->
  forall w self r rid,
    current_recorder tid w = Some self -> heap w !! self = Some r ->
    conn_open r = true -> run_id r = Some rid -> is_Some (db w) ->
    exec env tid (seq_events events k) w
    = exec env tid k (snd (exec env tid (seq_events events (Return PNone)) w)).
Proof.
  induction 1 as [|[ty data] events [payload Hj] Hall IH];
    intros w self r rid Hc Hr Ho Hid [d Hd]; simpl; [done|].
  unfold bind.
  assert (E : exists w1, trace_event env tid ty data w = (Returns tt, w1)
                         /\ heap w1 = heap w /\ context w1 = context w
                         /\ is_Some (db w1)).
  { unfold trace_event, get_current_recorder, bind, lift. simpl in Hj.
    rewrite Hc, Hj, (log_step_ok env self ty payload w r rid d Hr Ho Hid Hd). eauto. }
  destruct E as (w1 & -> & Hh & Hx & Hd1).
  apply (IH w1 self r rid); unfold current_recorder in *; by rewrite ?Hh, ?Hx.
Qed.

End Quiet.

(** ** The wrapper as a whole *)

Lemma entered_fresh_run env tid name args kwargs w :
  is_Some (end_ts_of (seq_runs (default empty_tables (db w)) + 1)
             (entered env tid name args kwargs w)).
Proof.
  unfold end_ts_of, find_run. simpl. rewrite find_app.
  destruct (List.find _ (runs (default empty_tables (db w)))); simpl; [eauto|].
  rewrite Z.eqb_refl. eauto.
Qed.

(** Whatever the wrapped code does, the wrapper finds its recorder as it
    left it, ends its run, closes it and puts the slot back. *)
Lemma traced_result env tid name args kwargs body w o w2 :
  exec env tid body (entered env tid name args kwargs w) = (o, w2) ->
  exists d2 w' d' ts last,
    db w2 = Some d2
    /\ heap w2 !! length (heap w)
       = Some (mkRunRecorder name (wrapper_sha env) true
                 (Some (seq_runs (default empty_tables (db w)) + 1)))
    /\ current_recorder tid w2 = Some (length (heap w))
    /\ traced env tid name args kwargs (exec env tid body) w = (o, w')
    /\ heap w' = <[length (heap w) :=
                     mkRunRecorder name (wrapper_sha env) false
                       (Some (seq_runs (default empty_tables (db w)) + 1))]> (heap w2)
    /\ context w' = <[tid := current_recorder tid w]> (context w2)
    /\ db w' = Some d'
    /\ runs d' = map (set_end_ts ts (Some (seq_runs (default empty_tables (db w)) + 1)))
                   (runs d2)
    /\ seq_runs d' = seq_runs d2
    /\ steps d' = (steps d2 ++ last)%list
    /\ Forall (fun s => steps_run_id s = seq_runs (default empty_tables (db w)) + 1) last.
Proof.
  intros Hbody.
  set (n := length (heap w)). set (w1 := entered env tid name args kwargs w) in *.
  set (rid := seq_runs (default empty_tables (db w)) + 1).
  assert (Hrec : heap w2 !! n =
                 Some (mkRunRecorder name (wrapper_sha env) true (Some rid))).
  { pose proof (exec_frame env tid body (S n) w1) as [_ Hf].
    { subst w1 n. simpl. rewrite length_app. simpl. lia. }
    rewrite Hbody in Hf. simpl in Hf. rewrite Hf by lia.
    subst w1 n. simpl. apply lookup_snoc_last. }
  assert (Hctx : current_recorder tid w2 = Some n).
  { pose proof (exec_context env tid body w1) as Hc. rewrite Hbody in Hc. simpl in Hc.
    rewrite Hc. subst w1. unfold current_recorder. simpl. by rewrite lookup_insert_eq. }
  assert (Hrun : is_Some (end_ts_of rid w2)).
  { pose proof (stable_exec env persists (persists_api env) tid body w1 rid) as Hp.
    rewrite Hbody in Hp. apply Hp, entered_fresh_run. }
  destruct Hrun as [x Hrun].
  apply end_ts_of_Some in Hrun as (d2 & row & Hd2 & _ & _).
  rewrite traced_split. fold w1. rewrite Hbody.
  destruct o as [v|E].
  - rewrite (wrapper_exit_returns env tid n _ _ v w2 _ rid d2 Hctx Hrec eq_refl eq_refl Hd2).
    eexists d2, _, _, _, [_]. simpl. repeat split; try done.
    constructor; [done|constructor].
  - rewrite (wrapper_exit_raises env tid n _ _ E w2 _ d2 Hrec eq_refl Hd2).
    eexists d2, _, _, _, []. simpl. rewrite app_nil_r. repeat split; try done.
Qed.

Lemma no_calls_seq_events events k : no_calls k -> no_calls (seq_events events k).
Proof. intros Hk. induction events as [|e events IH]; simpl; done. Qed.

Lemma runs_of_default w : runs_of w = runs (default empty_tables (db w)).
Proof. unfold runs_of. by destruct (db w). Qed.

Lemma trace_event_in_session env tid rid ty data payload w :
  in_session tid rid w -> json_dumps data = Returns payload ->
  trace_event env tid ty data w
  = (Returns tt, with_step (step_added env rid ty payload w) w).
Proof.
  intros (self & r & Hc & Hr & Ho & Hid & [d Hd]) Hj.
  unfold trace_event, get_current_recorder, bind, lift. rewrite Hc, Hj.
  rewrite (log_step_ok env self ty payload w r rid d Hr Ho Hid Hd).
  unfold with_step, step_added. by rewrite Hd.
Qed.

Lemma with_step_in_session tid rid s w : in_session tid rid w -> in_session tid rid (with_step s w).
Proof.
  intros (self & r & Hc & Hr & Ho & Hid & Hd). exists self, r. repeat split; try done.
Qed.

Lemma steps_of_with_step s w : steps_of (with_step s w) = (steps_of w ++ [s])%list.
Proof. unfold steps_of, with_step. simpl. by destruct (db w). Qed.

Lemma no_calls_seq_events_inv events k : no_calls (seq_events events k) -> no_calls k.
Proof. induction events as [|e events IH]; simpl; done. Qed.

(** Straight-line events inside a session are recorded one by one, in
    their order, in the run of the session. *)
Lemma seq_events_recorded env tid rid events k :
  Forall (fun e => serialisable (snd e)) events ->
  forall w, in_session tid rid w ->
    exists rows w1,
      exec env tid (seq_events events k) w = exec env tid k w1
      /\ in_session tid rid w1
      /\ steps_of w1 = (steps_of w ++ rows)%list
      /\ Forall2 (records rid) events rows.
Proof.
  induction 1 as [|[ty data] events [payload Hj] Hall IH]; intros w Hs; simpl.
  - exists [], w. rewrite app_nil_r. by repeat split.
  - unfold bind. simpl in Hj.
    rewrite (trace_event_in_session env tid rid ty data payload w Hs Hj).
    destruct (IH _ (with_step_in_session tid rid (step_added env rid ty payload w) w Hs))
      as (rows & w1 & E & Hs1 & Hsteps & Hrec).
    exists (step_added env rid ty payload w :: rows), w1.
    split; [done|]. split; [done|]. split.
    + by rewrite Hsteps, steps_of_with_step, <- app_assoc.
    + constructor; [|done]. split; [done|]. split; [done|]. by exists payload.
Qed.

(** ** C2: a traced function that calls a traced function *)

(** C2. Let [A] log some events, call the traced function [B] and go on
    with code that depends on the result, neither [B] nor the rest of [A]
    calling a traced function. One call of [A] adds exactly two runs to
    the file, with different ids. [B] runs with its own recorder active;
    once its wrapper is done, the slot of the thread holds the recorder of
    [A] again, still open on [A]'s run, and every step that the rest of
    [A] records carries the id of [A]'s run. The events that [A] emits
    after the call are recorded: the events with which the rest of [A]
    begins are the first steps added after [B] is done, one step each, in
    their order, with their kind, the JSON text of their data and the id
    of [A]'s run. *)
Theorem nested_traced_sessions env tid w nameA argsA kwargsA pre
    nameB argsB kwargsB bodyB kA :
  no_calls bodyB -> (forall v, no_calls (kA v)) ->
  Forall (fun e => serialisable (snd e)) pre ->
  let bodyA := seq_events pre (CallTraced nameB argsB kwargsB bodyB kA) in
  let rA := length (heap w) in
  let wA := at_call env tid nameA argsA kwargsA w in
  let wB := snd (exec env tid (seq_events pre (Return PNone)) wA) in
  let doneB := snd (traced env tid nameB argsB kwargsB (exec env tid bodyB) wB) in
  let final := snd (traced env tid nameA argsA kwargsA (exec env tid bodyA) w) in
  exists idA idB,
    idA <> idB
    /\ length (runs_of final) = (length (runs_of w) + 2)%nat
    /\ recorder_run_id rA wA = Some idA
    /\ active_run tid (at_call env tid nameB argsB kwargsB wB) = Some idB
    /\ current_recorder tid doneB = Some rA
    /\ recorder_open rA doneB
    /\ recorder_run_id rA doneB = Some idA
    /\ forall v, fst (traced env tid nameB argsB kwargsB (exec env tid bodyB) wB) = Returns v ->
         exists new,
           steps_of (snd (exec env tid (kA v) doneB)) = (steps_of doneB ++ new)%list
           /\ Forall (fun s => steps_run_id s = idA) new
           /\ forall events k,
                kA v = seq_events events k ->
                Forall (fun e => serialisable (snd e)) events ->
                exists rows rest,
                  new = (rows ++ rest)%list /\ Forall2 (records idA) events rows.
Proof.
  intros HB HkA Hpre bodyA rA wA wB doneB final.
  set (d0 := default empty_tables (db w)).
  set (idA := seq_runs d0 + 1).
  set (recA := mkRunRecorder nameA (wrapper_sha env) true (Some idA)).
  assert (EwA : wA = entered env tid nameA argsA kwargsA w).
  { subst wA. unfold at_call. by rewrite wrapper_entry_eq. }
  assert (HcA : current_recorder tid wA = Some rA).
  { rewrite EwA. unfold current_recorder. simpl. by rewrite lookup_insert_eq. }
  assert (HrA : heap wA !! rA = Some recA).
  { rewrite EwA. simpl. apply lookup_snoc_last. }
  assert (HlenA : length (heap wA) = S rA).
  { rewrite EwA. simpl. rewrite length_app. simpl. subst rA. lia. }
  destruct (db wA) as [dA|] eqn:HdA; [|by rewrite EwA in HdA].
  assert (HdA' : length (runs dA) = S (length (runs_of w)) /\ seq_runs dA = idA).
  { rewrite EwA in HdA. simpl in HdA. injection HdA as <-. simpl.
    rewrite length_app, runs_of_default. simpl. split; [lia|done]. }
  destruct HdA' as [HnA HsA].
  (* the events before the call *)
  pose proof (exec_no_calls_quiet env tid (seq_events pre (Return PNone))
                (no_calls_seq_events pre (Return PNone) I) wA) as (HhB & HxB & HqB).
  fold wB in HhB, HxB, HqB.
  destruct (HqB dA HdA) as (dB & newB & HdB & HrunsB & HseqB & _ & _).
  assert (HcB : current_recorder tid wB = Some rA).
  { unfold current_recorder in *. by rewrite HxB. }
  assert (HbodyA : exec env tid bodyA wA
                   = exec env tid (CallTraced nameB argsB kwargsB bodyB kA) wB).
  { subst bodyA wB. by apply (exec_seq_events env tid pre _ Hpre wA rA recA idA). }
  (* the call of B *)
  set (idB := seq_runs (default empty_tables (db wB)) + 1).
  assert (HidB : idB = idA + 1). { subst idB. rewrite HdB. simpl. lia. }
  destruct (exec env tid bodyB (entered env tid nameB argsB kwargsB wB))
    as [oB w2B] eqn:EB.
  destruct (traced_result env tid nameB argsB kwargsB bodyB wB oB w2B EB)
    as (d2B & wB' & dB' & tsB & lastB & Hd2B & Hrec2B & _ & EtB & HhB' & HxB'
        & HdB' & HrunsB' & HseqB' & _ & _).
  pose proof (exec_no_calls_quiet env tid bodyB HB (entered env tid nameB argsB kwargsB wB))
    as (Hh2B & _ & Hq2B).
  rewrite EB in Hh2B, Hq2B. simpl in Hh2B, Hq2B.
  destruct (Hq2B _ eq_refl) as (d2B' & new2B & Hd2B' & Hruns2B & _).
  assert (d2B' = d2B) as -> by congruence. simpl in Hruns2B.
  assert (EdoneB : doneB = wB') by (subst doneB; by rewrite EtB).
  assert (HrA' : heap doneB !! rA = Some recA).
  { rewrite EdoneB, HhB', Hh2B. simpl. rewrite HhB, HlenA.
    rewrite list_lookup_insert_ne by lia.
    rewrite lookup_app_l by (rewrite HlenA; lia). done. }
  assert (HcA' : current_recorder tid doneB = Some rA).
  { rewrite EdoneB. unfold current_recorder at 1. rewrite HxB'.
    by rewrite lookup_insert_eq. }
  assert (HnB : length (runs dB') = (length (runs_of w) + 2)%nat).
  { rewrite HrunsB', length_map, Hruns2B, HdB. simpl.
    rewrite length_app, HrunsB. simpl. lia. }
  (* the rest of A *)
  assert (Hrest : exists oA wA2 d2,
            exec env tid bodyA wA = (oA, wA2) /\ db wA2 = Some d2
            /\ length (runs d2) = (length (runs_of w) + 2)%nat).
  { rewrite HbodyA. simpl. unfold bind. rewrite EtB. destruct oB as [v|e].
    - pose proof (exec_no_calls_quiet env tid (kA v) (HkA v) wB') as (_ & _ & Hq).
      destruct (Hq dB' HdB') as (d3 & new & Hd3 & Hr3 & _).
      destruct (exec env tid (kA v) wB') as [oA wA2]. simpl in *.
      exists oA, wA2, d3. by rewrite Hr3.
    - by exists (Raises e), wB', dB'. }
  destruct Hrest as (oA & wA2 & d2 & ErestA & Hd2 & Hn2).
  rewrite EwA in ErestA.
  destruct (traced_result env tid nameA argsA kwargsA bodyA w oA wA2 ErestA)
    as (d2' & wfin & dfin & tsA & lastA & Hd2' & _ & _ & EtA & _ & _
        & Hdfin & Hrunsfin & _).
  assert (d2' = d2) as -> by congruence.
  exists idA, idB. split; [lia|]. split; [|split; [|split; [|split; [|split; [|split]]]]].
  - subst final. rewrite EtA. simpl. unfold runs_of. rewrite Hdfin, Hrunsfin.
    by rewrite length_map.
  - unfold recorder_run_id. by rewrite HrA.
  - unfold at_call. rewrite wrapper_entry_eq. simpl.
    unfold active_run, current_recorder, recorder_run_id. simpl.
    rewrite lookup_insert_eq. simpl. by rewrite lookup_snoc_last.
  - done.
  - by exists recA.
  - unfold recorder_run_id. by rewrite HrA'.
  - intros v Hv. rewrite EdoneB in *.
    pose proof (exec_no_calls_quiet env tid (kA v) (HkA v) wB') as (_ & _ & Hq).
    destruct (Hq dB' HdB') as (d3 & new & Hd3 & _ & _ & Hs3 & Hall).
    assert (Hnew : steps_of (snd (exec env tid (kA v) wB')) = (steps_of wB' ++ new)%list).
    { unfold steps_of. by rewrite Hd3, HdB'. }
    exists new. split; [done|]. split.
    { eapply Forall_impl; [exact Hall|]. intros s Hs. simpl in Hs.
      unfold active_run in Hs. rewrite HcA' in Hs. simpl in Hs.
      unfold recorder_run_id in Hs. rewrite HrA' in Hs. simpl in Hs. by injection Hs. }
    intros events k Ek Hser.
    assert (Hsess : in_session tid idA wB').
    { exists rA, recA. repeat split; try done; by exists dB'. }
    destruct (seq_events_recorded env tid idA events k Hser wB' Hsess)
      as (rows & w1 & Eexec & Hs1 & Hsteps1 & Hrec).
    assert (Hk : no_calls k).
    { apply (no_calls_seq_events_inv events). rewrite <- Ek. apply HkA. }
    pose proof (exec_no_calls_quiet env tid k Hk w1) as (_ & _ & Hq1).
    destruct Hs1 as (_ & _ & _ & _ & _ & _ & [d1 Hd1]).
    destruct (Hq1 d1 Hd1) as (d4 & rest & Hd4 & _ & _ & Hs4 & _).
    exists rows, rest. split; [|done].
    rewrite Ek, Eexec in Hnew. unfold steps_of in Hnew, Hsteps1.
    rewrite Hd4, Hs4 in Hnew. rewrite Hd1 in Hsteps1. rewrite Hsteps1 in Hnew.
    rewrite <- app_assoc in Hnew. by apply app_inv_head in Hnew.
Qed.

Lemma nested_traced_sessions_witness :
  let bodyA := seq_events outer_start
                 (CallTraced "inner_function" "(5,)" "{}" inner_function outer_rest) in
  let rA := length (heap initial_world) in
  let wA := at_call sample_env 0 "outer_function" "(5,)" "{}" initial_world in
  let wB := snd (exec sample_env 0 (seq_events outer_start (Return PNone)) wA) in
  let doneB := snd (traced sample_env 0 "inner_function" "(5,)" "{}"
                      (exec sample_env 0 inner_function) wB) in
  let final := snd (traced sample_env 0 "outer_function" "(5,)" "{}"
                      (exec sample_env 0 bodyA) initial_world) in
  exists idA idB,
    idA <> idB
    /\ length (runs_of final) = (length (runs_of initial_world) + 2)%nat
    /\ recorder_run_id rA wA = Some idA
    /\ active_run 0 (at_call sample_env 0 "inner_function" "(5,)" "{}" wB) = Some idB
    /\ current_recorder 0 doneB = Some rA
    /\ recorder_open rA doneB
    /\ recorder_run_id rA doneB = Some idA
    /\ forall v,
         fst (traced sample_env 0 "inner_function" "(5,)" "{}"
                (exec sample_env 0 inner_function) wB) = Returns v ->
         exists new,
           steps_of (snd (exec sample_env 0 (outer_rest v) doneB))
           = (steps_of doneB ++ new)%list
           /\ Forall (fun s => steps_run_id s = idA) new
           /\ forall events k,
                outer_rest v = seq_events events k ->
                Forall (fun e => serialisable (snd e)) events ->
                exists rows rest,
                  new = (rows ++ rest)%list /\ Forall2 (records idA) events rows.
Proof.
  apply (nested_traced_sessions sample_env 0%nat initial_world
           "outer_function" "(5,)" "{}" outer_start
           "inner_function" "(5,)" "{}" inner_function outer_rest).
  - exact I.
  - intros v. exact I.
  - constructor; [|constructor]. eexists. reflexivity.
Defined.

(** * Further properties *)

(** ** Closed connections and the steps table under any call *)

Lemma stays_shut_same self w w' : heap w' = heap w -> stays_shut self w w'.
Proof. intros Hh. unfold stays_shut, closed_at. by rewrite Hh. Qed.

Lemma stays_shut_api env self : api_stable env (stays_shut self).
Proof.
  split.
  - by intros w H.
  - intros w1 w2 w3 H12 H23 H. by apply H23, H12.
  - intros w. destruct (init_db_cases w) as [[-> _]|[-> Hd]]; simpl; [by intros ?|].
    by apply stays_shut_same.
  - intros name sha w. rewrite RunRecorder_init_eq. simpl.
    intros (r0 & Hr0 & Hc). exists r0. split; [|done]. simpl.
    by apply lookup_app_l_Some.
  - intros self' w.
    destruct (RunRecorder_enter_cases env self' w)
      as [(e & w' & -> & Hs)|(r & d & Hr & Ho & Hd & ->)]; simpl.
    { apply stays_shut_same, Hs. }
    intros (r0 & Hr0 & Hc). exists r0. split; [|done]. simpl.
    rewrite list_lookup_insert_ne; [done|]. intros ->. congruence.
  - intros self' kind payload w.
    destruct (log_step_cases env self' kind payload w)
      as [(e & w' & -> & Hs)|(r & rid' & d & Hr & Ho & Hid & Hd & ->)]; simpl.
    { apply stays_shut_same, Hs. }
    by apply stays_shut_same.
  - intros self' w.
    destruct (RunRecorder_exit_cases env self' w)
      as [(e & w' & -> & Hs)|(r & d & Hr & Ho & Hd & ->)]; simpl.
    { apply stays_shut_same, Hs. }
    intros (r0 & Hr0 & Hc).
    destruct (decide (self' = self)) as [->|Hne].
    + congruence.
    + exists r0. split; [|done]. simpl. by rewrite list_lookup_insert_ne.
  - intros tid v w. by apply stays_shut_same.
  - intros w. by apply stays_shut_same.
Qed.

Lemma steps_grow_same w w' : db w' = db w -> steps_grow w w'.
Proof. intros Hd. exists []. unfold steps_of. by rewrite Hd, app_nil_r. Qed.

Lemma steps_grow_api env : api_stable env steps_grow.
Proof.
  split.
  - intros w. by apply steps_grow_same.
  - intros w1 w2 w3 [n1 H1] [n2 H2]. exists (n1 ++ n2)%list.
    by rewrite H2, H1, app_assoc.
  - intros w. destruct (init_db_cases w) as [[-> _]|[-> Hd]]; simpl;
      [by apply steps_grow_same|].
    exists []. unfold steps_of. simpl. by rewrite Hd.
  - intros name sha w. rewrite RunRecorder_init_eq. simpl.
    exists []. unfold steps_of. simpl. by destruct (db w); rewrite ?app_nil_r.
  - intros self w.
    destruct (RunRecorder_enter_cases env self w)
      as [(e & w' & -> & Hs)|(r & d & Hr & Ho & Hd & ->)]; simpl.
    { apply steps_grow_same, Hs. }
    exists []. unfold steps_of. simpl. by rewrite Hd, app_nil_r.
  - intros self kind payload w.
    destruct (log_step_cases env self kind payload w)
      as [(e & w' & -> & Hs)|(r & rid & d & Hr & Ho & Hid & Hd & ->)]; simpl.
    { apply steps_grow_same, Hs. }
    eexists. unfold steps_of. simpl. by rewrite Hd.
  - intros self w.
    destruct (RunRecorder_exit_cases env self w)
      as [(e & w' & -> & Hs)|(r & d & Hr & Ho & Hd & ->)]; simpl.
    { apply steps_grow_same, Hs. }
    exists []. unfold steps_of. simpl. by rewrite Hd, app_nil_r.
  - intros tid v w. by apply steps_grow_same.
  - intros w. by apply steps_grow_same.
Qed.

(** ** The wrapper when the wrapped function returns *)

(** X1. Whatever the wrapped function does and whichever value [v] it
    returns -- serialisable or not -- the call of the wrapper returns that
    same [v]. The run of the wrapper has its end timestamp set, the
    connection of its recorder is closed, the slot of the calling thread
    holds what it held before, and the last step in the table is the
    [function_end] step of that run, carrying the name of the type of
    [v]. *)
Theorem traced_return_transparent env tid name args kwargs (body : prog) w v w2 :
  exec env tid body (at_call env tid name args kwargs w) = (Returns v, w2) ->
  exists w' rid ts earlier last,
    traced env tid name args kwargs (exec env tid body) w = (Returns v, w')
    /\ recorder_run_id (length (heap w)) w' = Some rid
    /\ end_ts_of rid w' = Some (Some ts)
    /\ ~ recorder_open (length (heap w)) w'
    /\ current_recorder tid w' = current_recorder tid w
    /\ steps_of w' = (earlier ++ [last])%list
    /\ steps_of w2 = earlier
    /\ steps_run_id last = rid
    /\ steps_kind last = "function_end"
    /\ steps_payload last = end_payload env (S (S (ticks w))) (ticks w2) v.
Proof.
  unfold at_call. rewrite wrapper_entry_eq. simpl. intros Hbody.
  destruct (traced_result env tid name args kwargs body w _ _ Hbody)
    as (d2 & _ & _ & _ & _ & Hd2 & Hrec & Hctx & _).
  set (n := length (heap w)) in *.
  set (rid := seq_runs (default empty_tables (db w)) + 1) in *.
  assert (Hrun : is_Some (end_ts_of rid w2)).
  { pose proof (stable_exec env persists (persists_api env) tid body
                  (entered env tid name args kwargs w) rid) as Hp.
    rewrite Hbody in Hp. apply Hp, entered_fresh_run. }
  destruct Hrun as [x Hrun].
  apply end_ts_of_Some in Hrun as (d2' & row & Hd2' & Hfind & _).
  assert (d2' = d2) as -> by congruence.
  rewrite traced_split, Hbody.
  rewrite (wrapper_exit_returns env tid n _ _ v w2 _ rid d2 Hctx Hrec eq_refl eq_refl Hd2).
  assert (Hn : (n < length (heap w2))%nat) by (by apply lookup_lt_Some in Hrec).
  eexists _, rid, _, (steps d2), _. split; [reflexivity|].
  split; [|split; [|split; [|split; [|split; [|split; [|split; [|split]]]]]]];
    try reflexivity.
  - unfold recorder_run_id. simpl. by rewrite list_lookup_insert_eq.
  - unfold end_ts_of, find_run in *. simpl. rewrite find_map_set_end_ts, Hfind. simpl.
    apply find_run_Some in Hfind as [_ Hid]. unfold set_end_ts. by rewrite Hid, Z.eqb_refl.
  - intros (r & Hr & Ho). simpl in Hr. rewrite list_lookup_insert_eq in Hr by done.
    by simplify_eq.
  - unfold current_recorder. simpl. by rewrite lookup_insert_eq.
  - unfold steps_of. by rewrite Hd2.
Qed.

(** [simple_function(2, 3)] of [tests/test_basic.py]. *)
Lemma traced_return_transparent_witness :
  exists w' rid ts earlier last,
    traced sample_env 0 "simple_function" "(2, 3)" "{}"
      (exec sample_env 0 (Return (PInt 5))) initial_world = (Returns (PInt 5), w')
    /\ recorder_run_id (length (heap initial_world)) w' = Some rid
    /\ end_ts_of rid w' = Some (Some ts)
    /\ ~ recorder_open (length (heap initial_world)) w'
    /\ current_recorder 0 w' = current_recorder 0 initial_world
    /\ steps_of w' = (earlier ++ [last])%list
    /\ steps_of (at_call sample_env 0 "simple_function" "(2, 3)" "{}" initial_world)
       = earlier
    /\ steps_run_id last = rid
    /\ steps_kind last = "function_end"
    /\ steps_payload last = end_payload sample_env 2 3 (PInt 5).
Proof.
  apply (traced_return_transparent sample_env 0%nat "simple_function" "(2, 3)" "{}"
           (Return (PInt 5)) initial_world (PInt 5)
           (at_call sample_env 0 "simple_function" "(2, 3)" "{}" initial_world)).
  reflexivity.
Defined.

(** ** Runs and connections that user code leaves behind *)

Lemma trace_event_end_ts env tid ty data w rid :
  end_ts_of rid (snd (trace_event env tid ty data w)) = end_ts_of rid w.
Proof.
  destruct (trace_event_cases env tid ty data w)
    as [(o & w' & -> & Hs)
       |(self & r & rid' & d & payload & _ & _ & _ & _ & _ & Hd & ->)]; simpl.
  - unfold end_ts_of. by rewrite (proj1 Hs).
  - unfold end_ts_of, find_run. simpl. by rewrite Hd.
Qed.

(** X2. User code leaves no run in progress that was not in progress
    before it started: every run opened while it ran -- by however many
    traced calls, nested or in sequence, returning or raising -- has its end
    timestamp set when the code is done. *)
Theorem exec_leaves_no_open_run env tid p w rid :
  end_ts_of rid (snd (exec env tid p w)) = Some None ->
  end_ts_of rid w = Some None.
Proof.
  revert w.
  induction p as [v|e|ty d k IH|nm a kw body IHb k IHk|body IHb handler IHh k IHk];
    intros w; simpl; try done.
  - unfold bind. pose proof (trace_event_end_ts env tid ty d w rid) as Ht.
    destruct (trace_event env tid ty d w) as [[[]|e] w1]; simpl in *.
    + intros H. rewrite <- Ht. by apply IH.
    + by rewrite Ht.
  - unfold bind.
    destruct (exec env tid body (entered env tid nm a kw w)) as [o w2] eqn:Eb.
    destruct (traced_result env tid nm a kw body w o w2 Eb)
      as (d2 & w' & d' & ts & last & Hd2 & _ & _ & Et & _ & _ & Hd' & Hruns & _).
    rewrite Et.
    assert (Hw' : end_ts_of rid w' = Some None -> end_ts_of rid w = Some None).
    { intros H. unfold end_ts_of, find_run in H. rewrite Hd', Hruns in H.
      rewrite find_map_set_end_ts in H.
      destruct (List.find (fun r => runs_id r =? rid) (runs d2)) as [row|] eqn:Hf;
        [|done].
      simpl in H. pose proof Hf as Hrow. apply find_some in Hrow as [_ Hid].
      apply Z.eqb_eq in Hid. unfold set_end_ts in H.
      destruct (runs_id row =? seq_runs (default empty_tables (db w)) + 1) eqn:Hne;
        [done|].
      apply Z.eqb_neq in Hne.
      assert (H2 : end_ts_of rid w2 = Some None).
      { unfold end_ts_of, find_run. rewrite Hd2, Hf. simpl. by injection H as ->. }
      specialize (IHb (entered env tid nm a kw w)). rewrite Eb in IHb.
      specialize (IHb H2). unfold end_ts_of, find_run in IHb.
      change (db (entered env tid nm a kw w)) with
        (Some (mkDatabase
                 (runs (default empty_tables (db w)) ++
                  [mkRun (seq_runs (default empty_tables (db w)) + 1) nm
                     (utcnow_isoformat env (ticks w)) None (wrapper_sha env)])
                 (steps (default empty_tables (db w)) ++
                  [mkStep (seq_steps (default empty_tables (db w)) + 1)
                     (seq_runs (default empty_tables (db w)) + 1)
                     (utcnow_isoformat env (S (ticks w)))
                     "function_start" (start_payload a kw) None])
                 (seq_runs (default empty_tables (db w)) + 1)
                 (seq_steps (default empty_tables (db w)) + 1))) in IHb.
      cbn [runs] in IHb. rewrite find_app in IHb.
      destruct (List.find (fun r => runs_id r =? rid)
                  (runs (default empty_tables (db w)))) as [r0|] eqn:Hf0.
      - unfold end_ts_of, find_run. destruct (db w) as [d0|]; [|done].
        simpl in Hf0. by rewrite Hf0.
      - exfalso. cbn [List.find runs_id] in IHb.
        destruct (seq_runs (default empty_tables (db w)) + 1 =? rid) eqn:E; [|done].
        apply Z.eqb_eq in E. lia. }
    destruct o as [v|e]; simpl; [|done].
    intros H. apply Hw'. by apply (IHk v).
  - specialize (IHb w). destruct (exec env tid body w) as [[v|e] w1]; simpl in *.
    + intros H. apply IHb. by apply (IHk v).
    + unfold bind. specialize (IHh e w1).
      destruct (exec env tid (handler e) w1) as [[v|e'] w2]; simpl in *.
      * intros H. apply IHb, IHh. by apply (IHk v).
      * intros H. by apply IHb, IHh.
Qed.

(** Inside a traced call, whose run 1 is in progress, the workflow of
    [demo.py] runs to its end: of the runs in progress afterwards, run 1 was
    so before. *)
Lemma exec_leaves_no_open_run_witness :
  end_ts_of 1 (at_call sample_env 0 "main" "()" "{}" initial_world) = Some None.
Proof.
  apply (exec_leaves_no_open_run sample_env 0%nat
           (CallTraced "complex_agent_workflow" "('plan',)" "{}"
              (complex_agent_workflow "plan" "('search', 'plan')"
                 "Found 3 results for 'plan'" "Result: 7" "done")
              Return)
           (at_call sample_env 0 "main" "()" "{}" initial_world) 1).
  vm_compute. reflexivity.
Defined.

Lemma fresh_closed_trans w w1 w2 :
  (length (heap w) <= length (heap w1))%nat ->
  fresh_closed w w1 -> fresh_closed w1 w2 -> (forall i, stays_shut i w1 w2) ->
  fresh_closed w w2.
Proof.
  intros Hlen H1 H2 Hs i r Hi Hr.
  destruct (decide (i < length (heap w1))%nat) as [Hlt|Hge].
  - destruct (lookup_lt_is_Some_2 (heap w1) i Hlt) as [r1 Hr1].
    destruct (Hs i) as (r' & Hr' & Hc'); [exists r1; split; [done|by eapply H1]|].
    congruence.
  - apply (H2 i r); [lia|done].
Qed.

Lemma fresh_closed_same w w' : heap w' = heap w -> fresh_closed w w'.
Proof.
  intros Hh i r Hi Hr. rewrite Hh in Hr. apply lookup_lt_Some in Hr. lia.
Qed.

(** X3. User code leaves no connection open: every recorder object made
    while it ran is closed when the code is done. *)
Theorem exec_closes_its_recorders env tid p w i r :
  (length (heap w) <= i)%nat ->
  heap (snd (exec env tid p w)) !! i = Some r ->
  conn_open r = false.
Proof.
  revert w i r. change (forall w, fresh_closed w (snd (exec env tid p w))).
  assert (Hshut : forall q w i, stays_shut i w (snd (exec env tid q w))).
  { intros q w i. apply (stable_exec env _ (stays_shut_api env i)). }
  assert (Hlen : forall q w, (length (heap w) <= length (heap (snd (exec env tid q w))))%nat).
  { intros q w. by destruct (exec_frame env tid q 0 w) as [? _]; [lia|]. }
  induction p as [v|e|ty d k IH|nm a kw body IHb k IHk|body IHb handler IHh k IHk];
    intros w; simpl.
  - by apply fresh_closed_same.
  - by apply fresh_closed_same.
  - unfold bind. pose proof (trace_event_heap env tid ty d w) as Hh.
    destruct (trace_event env tid ty d w) as [[[]|e] w1]; simpl in *;
      [|by apply fresh_closed_same].
    intros i r Hi. apply IH. by rewrite Hh.
  - unfold bind.
    destruct (exec env tid body (entered env tid nm a kw w)) as [o w2] eqn:Eb.
    destruct (traced_result env tid nm a kw body w o w2 Eb)
      as (d2 & w' & d' & ts & last & _ & Hrec & _ & Et & Hh' & _).
    rewrite Et.
    assert (Hw' : fresh_closed w w').
    { intros i r Hi Hr. rewrite Hh' in Hr.
      apply list_lookup_insert_Some in Hr as [(_ & <- & _)|(Hne & Hr)]; [done|].
      specialize (IHb (entered env tid nm a kw w)). rewrite Eb in IHb.
      apply (IHb i r); [|done]. simpl. rewrite length_app. simpl. lia. }
    destruct o as [v|e]; simpl; [|done].
    apply fresh_closed_trans with w'; auto.
    rewrite Hh', length_insert. apply lookup_lt_Some in Hrec. lia.
  - specialize (IHb w). pose proof (Hlen body w) as Hl.
    destruct (exec env tid body w) as [[v|e] w1]; simpl in *.
    + apply fresh_closed_trans with w1; auto.
    + unfold bind. specialize (IHh e w1). pose proof (Hlen (handler e) w1) as Hl1.
      pose proof (Hshut (handler e) w1) as Hs1.
      destruct (exec env tid (handler e) w1) as [[v|e'] w2]; simpl in *.
      * apply fresh_closed_trans with w1; auto.
        -- apply fresh_closed_trans with w2; auto.
        -- intros i Hc. by apply Hshut, Hs1.
      * apply fresh_closed_trans with w1; auto.
Qed.

Lemma exec_closes_its_recorders_witness :
  conn_open (mkRunRecorder "simulate_tool_use" "3f2a9c1d" false (Some 3)) = false.
Proof.
  apply (exec_closes_its_recorders sample_env 0%nat
           (complex_agent_workflow "plan" "('search', 'plan')"
              "Found 3 results for 'plan'" "Result: 7" "done")
           (at_call sample_env 0 "complex_agent_workflow" "('plan',)" "{}" initial_world)
           2%nat).
  - vm_compute. lia.
  - vm_compute. reflexivity.
Defined.

(** ** What user code in one thread leaves alone *)

(** X4. Code running in one thread never touches the slot of another:
    after any user code in thread [tid], [_context.recorder] of every other
    thread is what it was, set or unset. *)
Theorem exec_other_threads env tid p w t :
  t <> tid ->
  context (snd (exec env tid p w)) !! t = context w !! t.
Proof.
  intros Ht. revert w.
  induction p as [v|e|ty d k IH|nm a kw body IHb k IHk|body IHb handler IHh k IHk];
    intros w; simpl; try done.
  - unfold bind. pose proof (trace_event_context env tid ty d w) as Hc.
    destruct (trace_event env tid ty d w) as [[[]|e] w1]; simpl in *.
    + by rewrite IH, Hc.
    + by rewrite Hc.
  - unfold bind.
    destruct (exec env tid body (entered env tid nm a kw w)) as [o w2] eqn:Eb.
    destruct (traced_result env tid nm a kw body w o w2 Eb)
      as (d2 & w' & d' & ts & last & _ & _ & _ & Et & _ & Hx & _).
    rewrite Et. specialize (IHb (entered env tid nm a kw w)). rewrite Eb in IHb.
    simpl in IHb. rewrite lookup_insert_ne in IHb by done.
    assert (Hw' : context w' !! t = context w !! t).
    { rewrite Hx, lookup_insert_ne by done. exact IHb. }
    destruct o as [v|e]; simpl; [|done]. by rewrite IHk.
  - specialize (IHb w). destruct (exec env tid body w) as [[v|e] w1]; simpl in *.
    + by rewrite IHk.
    + unfold bind. specialize (IHh e w1).
      destruct (exec env tid (handler e) w1) as [[v|e'] w2]; simpl in *;
        [rewrite IHk|]; congruence.
Qed.

Lemma exec_other_threads_witness :
  context (snd (exec sample_env 0
                  (CallTraced "outer_function" "(5,)" "{}"
                     (seq_events outer_start
                        (CallTraced "inner_function" "(5,)" "{}" inner_function outer_rest))
                     Return)
                  two_threads)) !! 7%nat
  = context two_threads !! 7%nat.
Proof.
  apply (exec_other_threads sample_env 0%nat). lia.
Defined.

(** X5. User code never alters a recorder object that existed before it
    started -- not the one that is active when it starts either: each one
    keeps its run id and the state of its connection. *)
Theorem exec_keeps_earlier_recorders env tid p w i :
  (i < length (heap w))%nat ->
  heap (snd (exec env tid p w)) !! i = heap w !! i.
Proof.
  intros Hi. by apply (exec_frame env tid p (length (heap w)) w).
Qed.

Lemma exec_keeps_earlier_recorders_witness :
  heap (snd (exec sample_env 0
               (CallTraced "inner_function" "(5,)" "{}" inner_function outer_rest)
               two_threads)) !! 0%nat
  = heap two_threads !! 0%nat.
Proof.
  apply (exec_keeps_earlier_recorders sample_env 0%nat). vm_compute. lia.
Defined.

(** ** One event, one row *)

(** X6. One [trace_event] call writes at most one row. It never changes
    the runs, the recorders or the slots; either the steps are as they
    were, or exactly one step was added at the end: of the given kind, for
    the run of the active recorder, its payload the JSON text of the
    data. *)
Theorem trace_event_single_write env tid event_type data w :
  runs_of (snd (trace_event env tid event_type data w)) = runs_of w
  /\ heap (snd (trace_event env tid event_type data w)) = heap w
  /\ context (snd (trace_event env tid event_type data w)) = context w
  /\ (steps_of (snd (trace_event env tid event_type data w)) = steps_of w
      \/ exists s,
           steps_of (snd (trace_event env tid event_type data w)) = (steps_of w ++ [s])%list
           /\ fst (trace_event env tid event_type data w) = Returns tt
           /\ steps_kind s = event_type
           /\ Some (steps_run_id s) = active_run tid w
           /\ json_dumps data = Returns (steps_payload s)
           /\ steps_ts s = utcnow_isoformat env (ticks w)).
Proof.
  destruct (trace_event_cases env tid event_type data w)
    as [(o & w' & -> & Hd & Hh & Hc & _)
       |(self & r & rid & d & payload & Hc & Hj & Hr & _ & Hid & Hd & ->)]; simpl.
  - unfold runs_of, steps_of. rewrite Hd. repeat split; try done. by left.
  - unfold runs_of, steps_of. rewrite Hd. simpl. repeat split; try done.
    right. eexists. split; [reflexivity|]. simpl. repeat split; try done.
    unfold active_run, recorder_run_id. rewrite Hc. simpl. by rewrite Hr.
Qed.

(** ** A closed recorder cannot be entered again *)

Lemma RunRecorder_enter_closed env self w r :
  heap w !! self = Some r -> conn_open r = false ->
  RunRecorder_enter env self w = (Raises ProgrammingError, w).
Proof.
  intros Hr Ho.
  destruct (RunRecorder_enter env self w) as [o w'] eqn:E.
  unfold RunRecorder_enter in E. unfold_monad. split_on E. by simplify_eq.
Qed.

(** X7. A recorder is good for one [with] block: once [__exit__] has run,
    then after any further calls [__enter__] on the same recorder raises
    [sqlite3.ProgrammingError] and changes nothing at all; no run is
    opened. *)
Theorem enter_after_exit env self w0 w1 calls :
  RunRecorder_exit env self w0 = (Returns tt, w1) ->
  RunRecorder_enter env self (after env calls w1)
  = (Raises ProgrammingError, after env calls w1).
Proof.
  intros H1.
  destruct (RunRecorder_exit_cases env self w0)
    as [(e & w' & E & _)|(r & d & Hr & Ho & Hd & E)]; rewrite E in H1; [done|].
  injection H1 as <-.
  match goal with |- context [after env calls ?w] => set (w1 := w) end.
  assert (Hc : closed_at self w1).
  { exists (mkRunRecorder (func_name r) (git_sha r) false (run_id r)).
    split; [|done]. subst w1. simpl.
    apply list_lookup_insert_eq. by apply lookup_lt_Some in Hr. }
  apply (stable_after env _ (stays_shut_api env self) calls) in Hc.
  destruct Hc as (r' & Hr' & Ho'). by eapply RunRecorder_enter_closed.
Qed.

Lemma enter_after_exit_witness :
  RunRecorder_enter sample_env 0
    (after sample_env [Call_RunRecorder "other" None; Call_enter 1] once_closed)
  = (Raises ProgrammingError,
     after sample_env [Call_RunRecorder "other" None; Call_enter 1] once_closed).
Proof.
  apply (enter_after_exit sample_env 0%nat
           (snd (RunRecorder_enter sample_env 0
                   (snd (RunRecorder_init "job" None initial_world))))).
  vm_compute. reflexivity.
Defined.

(** ** Row ids *)

Lemma sorted_lt_NoDup (l : list Z) : StronglySorted Z.lt l -> NoDup l.
Proof.
  induction 1 as [|x l Hs IH Hall]; constructor; [|done].
  intros Hin. eapply Forall_forall in Hall; [|exact Hin]. lia.
Qed.

Lemma sorted_lt_snoc (l : list Z) x :
  StronglySorted Z.lt l -> Forall (fun y => y < x) l -> StronglySorted Z.lt (l ++ [x]).
Proof.
  intros Hs Hall. apply StronglySorted_app_2; [|done|repeat constructor].
  intros y z Hy ->%list_elem_of_singleton. by eapply Forall_forall in Hall.
Qed.

Lemma map_runs_id_set_end_ts ts o (l : list Run) :
  map runs_id (map (set_end_ts ts o) l) = map runs_id l.
Proof. rewrite map_map. apply map_ext. intros r. apply set_end_ts_id. Qed.

Lemma ids_ordered_same w w' : db w' = db w -> keeps_order w w'.
Proof. intros Hd H d. rewrite Hd. apply H. Qed.

Lemma ids_ordered_empty d : d = empty_tables ->
  0 <= seq_runs d /\ 0 <= seq_steps d
  /\ StronglySorted Z.lt (map runs_id (runs d))
  /\ Forall (fun r => 0 < runs_id r <= seq_runs d) (runs d)
  /\ StronglySorted Z.lt (map steps_id (steps d))
  /\ Forall (fun s => 0 < steps_id s <= seq_steps d) (steps d).
Proof. intros ->. simpl. repeat split; try lia; constructor. Qed.

Lemma keeps_order_api env : api_stable env keeps_order.
Proof.
  split.
  - by intros w H.
  - intros w1 w2 w3 H12 H23 H. by apply H23, H12.
  - intros w. destruct (init_db_cases w) as [[-> _]|[-> Hd]]; simpl; [by intros ?|].
    intros _ d [= <-]. by apply (ids_ordered_empty empty_tables).
  - intros name sha w. rewrite RunRecorder_init_eq. simpl.
    intros H d [= <-]. destruct (db w) as [d0|] eqn:Hd; simpl.
    + by apply H.
    + by apply (ids_ordered_empty empty_tables).
  - intros self w.
    destruct (RunRecorder_enter_cases env self w)
      as [(e & w' & -> & Hs)|(r & d & Hr & Ho & Hd & ->)]; simpl.
    { apply ids_ordered_same, Hs. }
    intros H d' [= <-]. destruct (H d Hd) as (Hq1 & Hq2 & Hr1 & Hr2 & Hs1 & Hs2). simpl.
    split; [lia|]. split; [done|]. split; [|split; [|done]].
    + rewrite map_app. simpl. apply sorted_lt_snoc; [done|].
      apply Forall_fmap. eapply Forall_impl; [exact Hr2|]. simpl. lia.
    + apply Forall_app. split.
      * eapply Forall_impl; [exact Hr2|]. simpl. lia.
      * constructor; [|constructor]. simpl. lia.
  - intros self kind payload w.
    destruct (log_step_cases env self kind payload w)
      as [(e & w' & -> & Hs)|(r & rid & d & Hr & Ho & Hid & Hd & ->)]; simpl.
    { apply ids_ordered_same, Hs. }
    intros H d' [= <-]. destruct (H d Hd) as (Hq1 & Hq2 & Hr1 & Hr2 & Hs1 & Hs2). simpl.
    split; [done|]. split; [lia|]. split; [done|]. split; [done|]. split.
    + rewrite map_app. simpl. apply sorted_lt_snoc; [done|].
      apply Forall_fmap. eapply Forall_impl; [exact Hs2|]. simpl. lia.
    + apply Forall_app. split.
      * eapply Forall_impl; [exact Hs2|]. simpl. lia.
      * constructor; [|constructor]. simpl. lia.
  - intros self w.
    destruct (RunRecorder_exit_cases env self w)
      as [(e & w' & -> & Hs)|(r & d & Hr & Ho & Hd & ->)]; simpl.
    { apply ids_ordered_same, Hs. }
    intros H d' [= <-]. destruct (H d Hd) as (Hq1 & Hq2 & Hr1 & Hr2 & Hs1 & Hs2). simpl.
    split; [done|]. split; [done|]. split; [|split; [|done]].
    + by rewrite map_runs_id_set_end_ts.
    + apply Forall_fmap. eapply Forall_impl; [exact Hr2|]. intros x Hx. simpl.
      by rewrite set_end_ts_id.
  - intros tid v w. by apply ids_ordered_same.
  - intros w. by apply ids_ordered_same.
Qed.

(** X8. Ids are handed out once and in order: in every world the calls
    reach from an empty file, the ids of the runs are positive and strictly
    increasing in the order of insertion -- so no two runs share an id --
    and so are the ids of the steps. *)
Theorem ids_unique_and_increasing env calls :
  StronglySorted Z.lt (map runs_id (runs_of (after env calls initial_world)))
  /\ NoDup (map runs_id (runs_of (after env calls initial_world)))
  /\ Forall (fun r => 0 < runs_id r) (runs_of (after env calls initial_world))
  /\ StronglySorted Z.lt (map steps_id (steps_of (after env calls initial_world)))
  /\ NoDup (map steps_id (steps_of (after env calls initial_world)))
  /\ Forall (fun s => 0 < steps_id s) (steps_of (after env calls initial_world)).
Proof.
  assert (H : ids_ordered (after env calls initial_world)).
  { apply (stable_after env _ (keeps_order_api env) calls initial_world).
    by intros d. }
  unfold runs_of, steps_of.
  destruct (db (after env calls initial_world)) as [d|] eqn:Hd.
  - destruct (H d Hd) as (_ & _ & Hr1 & Hr2 & Hs1 & Hs2).
    split; [done|]. split; [by apply sorted_lt_NoDup|]. split.
    { eapply Forall_impl; [exact Hr2|]. simpl. lia. }
    split; [done|]. split; [by apply sorted_lt_NoDup|].
    eapply Forall_impl; [exact Hs2|]. simpl. lia.
  - simpl. repeat split; constructor.
Qed.

(** ** Entering an open recorder again *)

Lemma end_ts_of_set_other ts o rid (l : list Run) :
  o <> Some rid ->
  set_end_ts ts o <$> List.find (fun r => runs_id r =? rid) l
  = List.find (fun r => runs_id r =? rid) l.
Proof.
  intros Hne. destruct (List.find _ l) as [row|] eqn:Hf; [|done]. simpl. f_equal.
  apply find_some in Hf as [_ Hid]. apply Z.eqb_eq in Hid.
  unfold set_end_ts. destruct o as [i|]; [|done].
  destruct (runs_id row =? i) eqn:E; [|done]. apply Z.eqb_eq in E. congruence.
Qed.

Lemma abandoned_same rid w w' :
  db w' = db w -> heap w' = heap w -> abandoned rid w -> abandoned rid w'.
Proof. intros Hd Hh. unfold abandoned, end_ts_of. by rewrite Hd, Hh. Qed.

Lemma stays_abandoned_api env rid : api_stable env (stays_abandoned rid).
Proof.
  split.
  - by intros w H.
  - intros w1 w2 w3 H12 H23 H. by apply H23, H12.
  - intros w [Hc Ha]. split; [by apply (keeps_init_db w Hc)|].
    destruct (init_db_cases w) as [[-> _]|[-> Hd]]; simpl; [done|].
    destruct Ha as [He _]. unfold end_ts_of in He. by rewrite Hd in He.
  - intros name sha w [Hc [He Ha]]. split; [by apply (keeps_init name sha w Hc)|].
    rewrite RunRecorder_init_eq. simpl.
    assert (Hd : is_Some (db w)).
    { unfold end_ts_of in He. destruct (db w); [eauto|done]. }
    destruct Hd as [d Hd]. split.
    + unfold end_ts_of in *. simpl. by rewrite Hd in *.
    + simpl. intros i r [Hi|[_ Hi]]%lookup_app_Some; [eauto|].
      apply list_lookup_singleton_Some in Hi as [_ <-]. done.
  - intros self w [Hc [He Ha]]. split; [by apply (keeps_enter env self w Hc)|].
    destruct (RunRecorder_enter_cases env self w)
      as [(e & w' & -> & Hs)|(r & d & Hr & Ho & Hd & ->)]; simpl.
    { apply (abandoned_same rid w); [apply Hs|apply Hs|done]. }
    apply end_ts_of_Some in He as (d' & row & Hd' & Hf & Hnone).
    assert (d' = d) as -> by congruence. split.
    + unfold end_ts_of, find_run in *. simpl. rewrite find_app, Hf. simpl. by f_equal.
    + simpl. intros i r0 [(-> & <- & _)|(Hne & Hi)]%list_lookup_insert_Some; [|eauto].
      simpl. intros _ [= E]. apply find_run_Some in Hf as [Hin Hid].
      pose proof (runs_below_seq _ Hc d row Hd Hin). lia.
  - intros self kind payload w [Hc Ha].
    split; [by apply (keeps_log_step env self kind payload w Hc)|].
    destruct (log_step_cases env self kind payload w)
      as [(e & w' & -> & Hs)|(r & rid' & d & Hr & Ho & Hid & Hd & ->)]; simpl.
    { apply (abandoned_same rid w); [apply Hs|apply Hs|done]. }
    destruct Ha as [He Ha]. split; [|done].
    unfold end_ts_of, find_run in *. rewrite Hd in He. done.
  - intros self w [Hc [He Ha]]. split; [by apply (keeps_exit env self w Hc)|].
    destruct (RunRecorder_exit_cases env self w)
      as [(e & w' & -> & Hs)|(r & d & Hr & Ho & Hd & ->)]; simpl.
    { apply (abandoned_same rid w); [apply Hs|apply Hs|done]. }
    split.
    + unfold end_ts_of, find_run in *. simpl. rewrite Hd in He.
      rewrite find_map_set_end_ts, end_ts_of_set_other; [done|]. by eapply Ha.
    + simpl. intros i r0 [(-> & <- & _)|(Hne & Hi)]%list_lookup_insert_Some; [done|eauto].
  - intros tid v w [Hc Ha].
    split; [by apply (consistent_same w)|by apply (abandoned_same rid w)].
  - intros w [Hc Ha].
    split; [by apply (consistent_same w)|by apply (abandoned_same rid w)].
Qed.

(** X9. Entering a recorder that is already open on a run opens a second
    run, under a new id, and abandons the first: whatever is called
    afterwards, the first run stays in progress for ever -- only the second
    is the recorder's to close. *)
Theorem enter_twice_abandons_first_run env calls self w1 w2 :
  RunRecorder_enter env self (after env calls initial_world) = (Returns self, w1) ->
  RunRecorder_enter env self w1 = (Returns self, w2) ->
  exists rid1 rid2,
    recorder_run_id self w1 = Some rid1
    /\ recorder_run_id self w2 = Some rid2
    /\ rid1 <> rid2
    /\ forall later, end_ts_of rid1 (after env later w2) = Some None.
Proof.
  intros H1 H2.
  pose proof (consistent_after env calls) as Hc.
  set (w := after env calls initial_world) in *.
  pose proof (keeps_enter env self w Hc) as [Hc1 _]. rewrite H1 in Hc1. simpl in Hc1.
  pose proof (keeps_enter env self w1 Hc1) as [Hc2 _]. rewrite H2 in Hc2. simpl in Hc2.
  destruct (RunRecorder_enter_cases env self w)
    as [(e & w' & E & _)|(r & d & Hr & Ho & Hd & E)]; rewrite E in H1; [done|].
  injection H1 as <-.
  match type of Hc1 with consistent ?x => set (w1 := x) in * end.
  set (rid1 := seq_runs d + 1) in *.
  assert (Hself : heap w1 !! self
                  = Some (mkRunRecorder (func_name r) (git_sha r) true (Some rid1))).
  { subst w1. simpl. apply list_lookup_insert_eq. by apply lookup_lt_Some in Hr. }
  pose proof (open_in_progress _ Hc1 self _ rid1 Hself eq_refl eq_refl) as Hend1.
  rewrite (RunRecorder_enter_ok env self w1 _ _ Hself eq_refl eq_refl) in H2.
  injection H2 as <-. simpl in Hc2.
  match type of Hc2 with consistent ?x => set (w2 := x) in * end.
  exists rid1, (rid1 + 1). split; [|split; [|split; [lia|]]].
  - unfold recorder_run_id. by rewrite Hself.
  - unfold recorder_run_id. subst w2. simpl.
    rewrite list_lookup_insert_eq; [done|]. rewrite length_insert.
    by apply lookup_lt_Some in Hr.
  - intros later.
    assert (Ha : abandoned rid1 w2).
    { split.
      - apply end_ts_of_Some in Hend1 as (d1 & row & Hd1 & Hf & Hnone).
        subst w1. simpl in Hd1. injection Hd1 as <-.
        unfold end_ts_of, find_run in *. subst w2. simpl in *.
        rewrite find_app, Hf. simpl. by f_equal.
      - subst w2. simpl.
        intros i r0 [(-> & <- & _)|(Hne & Hi)]%list_lookup_insert_Some.
        + simpl. intros _ [= E']. lia.
        + intros Hop Hid. apply Hne.
          by apply (open_distinct _ Hc1 self i _ r0 rid1 Hself Hi). }
    by destruct (stable_after env _ (stays_abandoned_api env rid1) later w2
                   (conj Hc2 Ha)) as [_ [He _]].
Qed.

Lemma enter_twice_abandons_first_run_witness :
  let w1 := snd (RunRecorder_enter sample_env 0
                   (after sample_env [Call_RunRecorder "job" None] initial_world)) in
  let w2 := snd (RunRecorder_enter sample_env 0 w1) in
  exists rid1 rid2,
    recorder_run_id 0 w1 = Some rid1
    /\ recorder_run_id 0 w2 = Some rid2
    /\ rid1 <> rid2
    /\ forall later, end_ts_of rid1 (after sample_env later w2) = Some None.
Proof.
  apply (enter_twice_abandons_first_run sample_env [Call_RunRecorder "job" None] 0%nat).
  - vm_compute. reflexivity.
  - vm_compute. reflexivity.
Defined.

(** ** Listing the runs *)







(** ** The endpoints *)



(** ** The steps of the run of a traced call *)

(** X13. A traced call that returns leaves a run whose steps, in the order
    of insertion, begin with the [function_start] step of the wrapper and
    end with its [function_end] step, everything the wrapped function
    recorded in that run lying between the two. *)
Theorem traced_run_is_bracketed env calls tid name args kwargs (body : prog) v w2 :
  exec env tid body (at_call env tid name args kwargs (after env calls initial_world))
  = (Returns v, w2) ->
  exists rid first between last,
    recorder_run_id (length (heap (after env calls initial_world)))
      (snd (traced env tid name args kwargs (exec env tid body)
              (after env calls initial_world))) = Some rid
    /\ filter (fun s => steps_run_id s = rid)
         (steps_of (snd (traced env tid name args kwargs (exec env tid body)
                           (after env calls initial_world))))
       = (first :: between ++ [last])%list
    /\ steps_kind first = "function_start"
    /\ steps_payload first = start_payload args kwargs
    /\ steps_kind last = "function_end"
    /\ steps_payload last
       = end_payload env (S (S (ticks (after env calls initial_world)))) (ticks w2) v.
Proof.
  unfold at_call. rewrite wrapper_entry_eq. simpl. intros Hbody.
  pose proof (consistent_after env calls) as Hc.
  set (w := after env calls initial_world) in *.
  destruct (traced_result env tid name args kwargs body w _ _ Hbody)
    as (d2 & _ & _ & _ & _ & Hd2 & Hrec & Hctx & _).
  set (n := length (heap w)) in *.
  set (d0 := default empty_tables (db w)) in *.
  set (rid := seq_runs d0 + 1) in *.
  (* no step names the new run before the call *)
  assert (Hfresh : filter (fun s => steps_run_id s = rid) (steps d0) = []).
  { apply elem_of_nil_inv. intros s [Hid Hs]%list_elem_of_filter.
    subst d0. destruct (db w) as [d|] eqn:Hd; [|by apply elem_of_nil in Hs]. simpl in *.
    destruct (steps_reference_runs _ Hc s) as (run & Hin & Hrun).
    { unfold steps_of. by rewrite Hd. }
    unfold runs_of in Hin. rewrite Hd in Hin.
    pose proof (runs_below_seq _ Hc d run Hd Hin). subst rid. lia. }
  (* the body only adds steps *)
  destruct (stable_exec env _ (steps_grow_api env) tid body
              (entered env tid name args kwargs w)) as [new Hnew].
  rewrite Hbody in Hnew. unfold steps_of in Hnew. simpl in Hnew. rewrite Hd2 in Hnew.
  rewrite traced_split, Hbody.
  rewrite (wrapper_exit_returns env tid n _ _ v w2 _ rid d2 Hctx Hrec eq_refl eq_refl Hd2).
  assert (Hn : (n < length (heap w2))%nat) by (by apply lookup_lt_Some in Hrec).
  eexists rid, _, (filter (fun s => steps_run_id s = rid) new), _.
  split; [|split; [|split; [|split; [|split]]]].
  - unfold recorder_run_id. simpl. by rewrite list_lookup_insert_eq.
  - unfold steps_of. simpl. rewrite Hnew, !filter_app. subst d0. rewrite Hfresh.
    rewrite !(filter_cons_True _ _ []) by done. rewrite filter_nil.
    rewrite <- app_assoc. reflexivity.
  - reflexivity.
  - reflexivity.
  - reflexivity.
  - reflexivity.
Qed.

Lemma traced_run_is_bracketed_witness :
  let w := after sample_env [Call_RunRecorder "job" None; Call_enter 0] initial_world in
  exists rid first between last,
    recorder_run_id (length (heap w))
      (snd (traced sample_env 0 "inner_function" "(5,)" "{}"
              (exec sample_env 0 inner_function) w)) = Some rid
    /\ filter (fun s => steps_run_id s = rid)
         (steps_of (snd (traced sample_env 0 "inner_function" "(5,)" "{}"
                           (exec sample_env 0 inner_function) w)))
       = (first :: between ++ [last])%list
    /\ steps_kind first = "function_start"
    /\ steps_payload first = start_payload "(5,)" "{}"
    /\ steps_kind last = "function_end"
    /\ steps_payload last = end_payload sample_env (S (S (ticks w))) 5 (PInt 10).
Proof.
  apply (traced_run_is_bracketed sample_env [Call_RunRecorder "job" None; Call_enter 0]
           0%nat "inner_function" "(5,)" "{}" inner_function (PInt 10)
           (snd (exec sample_env 0 inner_function
                   (at_call sample_env 0 "inner_function" "(5,)" "{}"
                      (after sample_env [Call_RunRecorder "job" None; Call_enter 0]
                         initial_world))))).
  vm_compute. reflexivity.
Defined.

(** ** What the wrapper writes about the call *)

Lemma length_append (a b : string) :
  String.length (a ++ b) = (String.length a + String.length b)%nat.
Proof. induction a as [|c a IH]; simpl; [done|]. by rewrite IH. Qed.

Lemma length_substring_0 n (s : string) : (String.length (substring 0 n s) <= n)%nat.
Proof.
  revert s. induction n as [|n IH]; intros [|c s]; simpl; try lia.
  specialize (IH s). lia.
Qed.

Lemma length_escape_codepoint n :
  (1 <= String.length (escape_codepoint n) <= 12)%nat.
Proof.
  unfold escape_codepoint.
  repeat match goal with |- context [if ?b then _ else _] => destruct b end;
    simpl; lia.
Qed.

Lemma length_escape_string (s : pystr) :
  (String.length (escape_string s) <= 12 * length s)%nat.
Proof.
  induction s as [|c s IH]; simpl; [lia|].
  rewrite length_append. pose proof (length_escape_codepoint c). lia.
Qed.

Lemma length_encode_basestring_ascii (s : pystr) :
  (String.length (encode_basestring_ascii s) <= 12 * length s + 2)%nat.
Proof.
  unfold encode_basestring_ascii. simpl. rewrite length_append. simpl.
  pose proof (length_escape_string s). lia.
Qed.

Lemma length_prefix n (s : pystr) : (length (prefix n s) <= n)%nat.
Proof. unfold prefix. rewrite length_take. lia. Qed.

Lemma start_payload_eq args kwargs :
  start_payload args kwargs
  = "{" ++ ((encode_basestring_ascii "args" ++ ": "
             ++ encode_basestring_ascii (prefix 100 args))
            ++ ", " ++ encode_basestring_ascii "kwargs" ++ ": "
            ++ encode_basestring_ascii (prefix 100 kwargs))
    ++ "}".
Proof. reflexivity. Qed.

(** X14. The arguments of a traced call cannot make its first step grow
    without bound: however long [str(args)] and [str(kwargs)] are, and
    whatever characters they hold -- one outside the Basic Multilingual
    Plane takes twelve characters of JSON -- the payload of the
    [function_start] step is at most 2426 characters long. *)
Theorem function_start_payload_bounded env tid name args kwargs w :
  exists s,
    last (steps_of (at_call env tid name args kwargs w)) = Some s
    /\ steps_kind s = "function_start"
    /\ steps_payload s = start_payload args kwargs
    /\ (String.length (start_payload args kwargs) <= 2426)%nat.
Proof.
  unfold at_call. rewrite wrapper_entry_eq. cbn [snd].
  unfold steps_of, entered. cbn [db steps]. eexists.
  split; [apply last_snoc|]. cbn [steps_kind steps_payload].
  split; [done|]. split; [done|].
  rewrite start_payload_eq, !length_append.
  change (String.length (encode_basestring_ascii "args")) with 6%nat.
  change (String.length (encode_basestring_ascii "kwargs")) with 8%nat.
  change (String.length "{") with 1%nat. change (String.length "}") with 1%nat.
  change (String.length ": ") with 2%nat. change (String.length ", ") with 2%nat.
  pose proof (length_encode_basestring_ascii (prefix 100 args)).
  pose proof (length_encode_basestring_ascii (prefix 100 kwargs)).
  pose proof (length_prefix 100 args).
  pose proof (length_prefix 100 kwargs).
  lia.
Qed.

(** X15. The run of a traced call is stored under the name of the
    function and with a revision that is never empty and never longer than
    eight characters, whatever [git] printed and whether or not it ran. *)
Theorem traced_run_name_and_revision env tid name args kwargs w :
  exists run,
    last (runs_of (at_call env tid name args kwargs w)) = Some run
    /\ runs_func_name run = name
    /\ runs_end_ts run = None
    /\ (1 <= String.length (runs_git_sha run) <= 8)%nat.
Proof.
  unfold at_call. rewrite wrapper_entry_eq. simpl. eexists.
  split; [unfold runs_of; simpl; apply last_snoc|]. simpl.
  split; [done|]. split; [done|].
  unfold wrapper_sha, or_unknown.
  destruct (git_rev_parse env) as [out|]; [|simpl; lia].
  destruct (String.eqb (substring 0 8 out) EmptyString) eqn:E; [simpl; lia|].
  apply String.eqb_neq in E. pose proof (length_substring_0 8 out).
  destruct (substring 0 8 out); [done|simpl in *; lia].
Qed.

(** ** Events inside a session *)

Lemma at_call_in_session env tid name args kwargs w :
  in_session tid (seq_runs (default empty_tables (db w)) + 1)
    (at_call env tid name args kwargs w).
Proof.
  unfold at_call. rewrite wrapper_entry_eq. simpl.
  eexists (length (heap w)), _. split; [|split; [apply lookup_snoc_last|]].
  - unfold current_recorder. simpl. by rewrite lookup_insert_eq.
  - simpl. repeat split. eauto.
Qed.

(** A list of strings always encodes. *)
Lemma json_dumps_list_of_str (l : list string) :
  exists s, json_dumps (PList (map (fun key : string => PStr key) l)) = Returns s.
Proof.
  simpl.
  assert (H : exists ss,
    (fix encode_items (l : list pydata) : outcome (list string) :=
       match l with
       | [] => Returns []
       | x :: r =>
           match json_dumps x with
           | Raises e => Raises e
           | Returns s =>
               match encode_items r with
               | Raises e => Raises e
               | Returns ss => Returns (s :: ss)
               end
           end
       end) (map (fun key : string => PStr key) l) = Returns ss).
  { induction l as [|x l [ss IH]]; [by exists []|]. simpl. rewrite IH. eauto. }
  destruct H as [ss ->]. eauto.
Qed.

(** A dictionary with one entry encodes when its value does. *)
Lemma json_dumps_singleton_dict (k : string) (v : pydata) (s : string) :
  json_dumps v = Returns s ->
  json_dumps (PDict [(k, v)])
  = Returns ("{" ++ join ", " [encode_basestring_ascii k ++ ": " ++ s] ++ "}").
Proof. intros H. simpl. by rewrite H. Qed.

(** X16. [on_chain_end] records the names of the outputs and nothing of
    their values: inside a session it returns normally and adds exactly one
    [chain_end] step to the run, whatever the values are -- objects that
    [json.dumps] would reject included. *)
Theorem on_chain_end_records_keys_only env tid rid outputs w :
  in_session tid rid w ->
  exists payload,
    json_dumps (PDict [("outputs",
                        PList (map (fun key : string => PStr key) (map fst outputs)))])
    = Returns payload
    /\ on_chain_end env tid outputs w
       = (Returns tt, with_step (step_added env rid "chain_end" payload w) w).
Proof.
  intros Hs. unfold on_chain_end, dict_keys.
  assert (Hkeys : map (fun kv : string * pydata => PStr (fst kv)) outputs
                  = map (fun key : string => PStr key) (map fst outputs))
    by (by rewrite map_map).
  rewrite Hkeys.
  destruct (json_dumps_list_of_str (map fst outputs)) as [s Hj].
  assert (Hd : exists payload,
            json_dumps (PDict [("outputs",
                                PList (map (fun key : string => PStr key)
                                         (map fst outputs)))])
            = Returns payload).
  { eexists. apply json_dumps_singleton_dict, Hj. }
  destruct Hd as [payload Hp]. exists payload. split; [done|].
  by apply trace_event_in_session.
Qed.

Lemma on_chain_end_records_keys_only_witness :
  exists payload,
    json_dumps (PDict [("outputs",
                        PList (map (fun key : string => PStr key)
                                 (map fst [("answer", PObject "AIMessage");
                                           ("sources", PList [])])))])
    = Returns payload
    /\ on_chain_end sample_env 0
         [("answer", PObject "AIMessage"); ("sources", PList [])]
         (at_call sample_env 0 "agent" "()" "{}" initial_world)
       = (Returns tt,
          with_step (step_added sample_env 1 "chain_end" payload
                       (at_call sample_env 0 "agent" "()" "{}" initial_world))
            (at_call sample_env 0 "agent" "()" "{}" initial_world)).
Proof.
  apply (on_chain_end_records_keys_only sample_env 0%nat 1).
  apply (at_call_in_session sample_env 0%nat "agent" "()" "{}" initial_world).
Defined.

(** X17. [on_tool_end] keeps the first hundred characters of the output:
    inside a session it returns normally and adds exactly one [tool_end]
    step, whose payload is at most 1214 characters long however long the
    output of the tool was and whatever characters it holds. *)
Theorem on_tool_end_bounded env tid rid output w :
  in_session tid rid w ->
  exists payload,
    on_tool_end env tid output w
    = (Returns tt, with_step (step_added env rid "tool_end" payload w) w)
    /\ json_dumps (PDict [("output", PStr (prefix 100 output))]) = Returns payload
    /\ (String.length payload <= 1214)%nat.
Proof.
  intros Hs. eexists. split; [|split].
  - unfold on_tool_end. apply trace_event_in_session; [done|reflexivity].
  - reflexivity.
  - cbn [join]. rewrite !length_append.
    change (String.length (encode_basestring_ascii "output")) with 8%nat.
    change (String.length "{") with 1%nat. change (String.length "}") with 1%nat.
    change (String.length ": ") with 2%nat.
    pose proof (length_encode_basestring_ascii (prefix 100 output)).
    pose proof (length_prefix 100 output). lia.
Qed.

Lemma on_tool_end_bounded_witness :
  exists payload,
    on_tool_end sample_env 0 "Found 3 results"
      (at_call sample_env 0 "agent" "()" "{}" initial_world)
    = (Returns tt,
       with_step (step_added sample_env 1 "tool_end" payload
                    (at_call sample_env 0 "agent" "()" "{}" initial_world))
         (at_call sample_env 0 "agent" "()" "{}" initial_world))
    /\ json_dumps (PDict [("output", PStr (prefix 100 "Found 3 results"))])
       = Returns payload
    /\ (String.length payload <= 1214)%nat.
Proof.
  apply (on_tool_end_bounded sample_env 0%nat 1).
  apply (at_call_in_session sample_env 0%nat "agent" "()" "{}" initial_world).
Defined.

(** ** The tables and the session under user code *)






(** ** integrations/crewai.py: the data of the events always encodes *)













(** ** [kickoff] of a traced crew *)



